(** * RagDocs: a shallow embedding of the chat front end and of the
    retrieval pipeline, with the properties of its specification.

    - [ChatTypes]: the shared types of [src/ragdocs_frontend/src/types/chat.ts].
    - [UseChat]: the [useChat] hook of
      [src/ragdocs_frontend/src/app/(chat)/chat/[id]/page.tsx] as a state
      machine whose steps are the synchronous runs between two awaits.
    - [ChatRoute]: the [POST] handler and [chatRequestSchema] of
      [src/frontend/src/app/(chat)/api/history/route.ts].
    - [ChatHelpers], [ChatPage], [SourceLinks]: the rest of the hook
      ([handleSubmit], [updateConversationId]), the technology toggle of
      [ChatInput], the loading indicator of [Chat], the page's [getChat],
      [ChatPage] and [generateMetadata], the other history handlers, and
      the documentation links of [message.tsx].
    - [Indexer], [Retriever], [Synthesizer]: the Python back end
      ([ragdocs_api/file_tracker.py], [rag_system.py], [llm_provider.py])
      is not part of the sources; these modules are modelled from the
      specification, each such definition says so in its doc comment. *)

From Stdlib Require Import String Ascii ZArith Lia Sorted.
From stdpp Require Import base list strings gmap sets.

Open Scope string_scope.
Open Scope list_scope.

(* ================================================================== *)
(** ** Shared types ([types/chat.ts]) *)
(* ================================================================== *)

Module ChatTypes.

(** [interface Source].  [score] is a JSON number; the front end only
    passes it through, so an integer stands for it. *)
Record Source := mkSource {
  technology : string;
  file_path : string;
  section_title : string;
  category : string;
  score : Z;
  content_preview : string;
  full_content : string
}.

(** [role: 'user' | 'assistant' | 'system'] *)
Inductive Role := user | assistant | system.

(** [interface Message]; [id] is a [uuidv4()] string, drawn here from a
    counter that plays the role of the generator of fresh ids. *)
Record Message := mkMessage {
  id : nat;
  role : Role;
  content : string;
  sources : list Source
}.

(** [interface ChatResponse] *)
Record ChatResponse := mkChatResponse {
  conversation_id : string;
  response : string;
  cr_sources : list Source
}.

Definition role_eqb (a b : Role) : bool :=
  match a, b with
  | user, user | assistant, assistant | system, system => true
  | _, _ => false
  end.

End ChatTypes.

(* ================================================================== *)
(** ** [String.prototype.trim] *)
(* ================================================================== *)

Module JsString.

(** The characters [trim] removes among the 8-bit code units: TAB, LF,
    VT, FF, CR, SPACE and NO-BREAK SPACE (U+00A0). *)
Definition is_ws (c : ascii) : bool :=
  match nat_of_ascii c with
  | 9 | 10 | 11 | 12 | 13 | 32 | 160 => true
  | _ => false
  end.

Fixpoint drop_ws (l : list ascii) : list ascii :=
  match l with
  | [] => []
  | c :: r => if is_ws c then drop_ws r else l
  end.

(** A list of characters that is empty or starts with a character [trim]
    keeps. *)
Definition starts_nonws (l : list ascii) : Prop :=
  match l with [] => True | c :: _ => is_ws c = false end.

(** [s.trim()] *)
Definition trim (s : string) : string :=
  string_of_list_ascii
    (rev (drop_ws (rev (drop_ws (list_ascii_of_string s))))).

End JsString.

(* ================================================================== *)
(** ** The [useChat] hook *)
(* ================================================================== *)

Module UseChat.
Import ChatTypes JsString.

(** [options?: { technologies?: string[]; categories?: string[] }] *)
Record Options := mkOptions {
  opt_technologies : option (list string);
  opt_categories : option (list string)
}.

(** The [body] of [UseChatOptions]; [Chat] passes
    [{ technologies: [], categories: [] }]. *)
Record Config := mkConfig {
  body_technologies : option (list string);
  body_categories : option (list string)
}.

(** [requestBody] *)
Record RequestBody := mkRequestBody {
  rb_message : string;
  rb_conversation_id : option string;
  rb_technologies : list string;
  rb_categories : list string
}.

(** A [fetch] in flight: the controller whose [signal] it carries, and
    what it sent. *)
Record Request := mkRequest {
  req_ctrl : nat;
  req_body : RequestBody
}.

(** The hook's state: its [useState] cells ([messages], [isLoading],
    [error]), its refs ([abortControllerRef] as [ctrl],
    [conversationIdRef] as [convRef]), the controllers on which [abort()]
    was called, the fetches in flight, and the supplies of fresh
    controllers and of fresh message ids. *)
Record State := mkState {
  messages : list Message;
  isLoading : bool;
  error : option string;
  ctrl : option nat;
  aborted : list nat;
  next_ctrl : nat;
  next_uuid : nat;
  convRef : option string;
  pending : list Request
}.

(** What the [Promise] of [append] (and of [reload]) resolves to:
    [null], [undefined] (the [catch] path) or [data.conversation_id]. *)
Inductive AppendResult := RNull | RUndefined | RId (cid : string).

(** The state right after mounting: the [useEffect] has stored controller
    [0] in [abortControllerRef]. *)
Definition init (initialMessages : list Message) (initialId : option string)
    (uuid0 : nat) : State :=
  mkState initialMessages false None (Some 0) [] 1 uuid0 initialId [].

(** [x || y] on an optional array: an array, even empty, is truthy. *)
Definition or_list (x : option (list string)) (y : list string) : list string :=
  match x with Some l => l | None => y end.

Definition opt_tech (o : option Options) : option (list string) :=
  match o with Some o => opt_technologies o | None => None end.

Definition opt_cat (o : option Options) : option (list string) :=
  match o with Some o => opt_categories o | None => None end.

(** [append] from its start to the [await fetch(...)]: it either returns
    [null] at once (the second component is [None]), or it aborts the
    controller in [abortControllerRef], installs a fresh one, appends the
    user message and sends the request (the second component is the new
    controller). *)
Definition append_start (cfg : Config) (s : State) (content : string)
    (options : option Options) : State * option nat :=
  if String.eqb (trim content) "" then (s, None) else
  let aborted' := match ctrl s with
                  | Some k => k :: aborted s
                  | None => aborted s
                  end in
  let c := next_ctrl s in
  let userMessage := mkMessage (next_uuid s) user (trim content) [] in
  let requestBody :=
    mkRequestBody (trim content) (convRef s)
      (or_list (opt_tech options) (or_list (body_technologies cfg) []))
      (or_list (opt_cat options) (or_list (body_categories cfg) [])) in
  (mkState (messages s ++ [userMessage]) true None (Some c) aborted'
     (S c) (S (next_uuid s)) (convRef s)
     (pending s ++ [mkRequest c requestBody]),
   Some c).

Definition remove_req (c : nat) (rs : list Request) : list Request :=
  List.filter (fun r => negb (Nat.eqb (req_ctrl r) c)) rs.

(** The rest of [append] once [response.json()] has resolved with [data]
    ([Chat]'s [onResponse] is synchronous, so nothing runs in between):
    [updateConversationId] when [data.conversation_id] is truthy, the
    assistant message, [finally] and the return value. *)
Definition complete_ok (s : State) (c : nat) (data : ChatResponse)
    : State * AppendResult :=
  let conv := if String.eqb (conversation_id data) "" then convRef s
              else Some (conversation_id data) in
  let assistantMessage :=
    mkMessage (next_uuid s) assistant (response data) (cr_sources data) in
  (mkState (messages s ++ [assistantMessage]) false (error s) (ctrl s)
     (aborted s) (next_ctrl s) (S (next_uuid s)) conv (remove_req c (pending s)),
   RId (conversation_id data)).

(** The [catch] and [finally] of [append], reached when [fetch] or
    [response.json()] rejects (network error, abort) or the response is
    not [ok]; [e] is the error's message. *)
Definition complete_err (s : State) (c : nat) (e : string)
    : State * AppendResult :=
  (mkState (messages s) false (Some e) (ctrl s) (aborted s) (next_ctrl s)
     (next_uuid s) (convRef s) (remove_req c (pending s)),
   RUndefined).

(** [stop] *)
Definition stop (s : State) : State :=
  match ctrl s with
  | Some k => mkState (messages s) false (error s) (ctrl s) (k :: aborted s)
                (next_ctrl s) (next_uuid s) (convRef s) (pending s)
  | None => s
  end.

(** [messages.reduceRight(...)]: [fold_right] visits the last element
    first, as [reduceRight] does. *)
Definition lum_step (p : nat * Message) (acc : Z) : Z :=
  if Z.eqb acc (-1)%Z && role_eqb (role p.2) user then Z.of_nat p.1 else acc.

Definition lastUserMessageIndex (ms : list Message) : Z :=
  fold_right lum_step (-1)%Z (zip (seq 0 (length ms)) ms).

Definition set_messages (s : State) (ms : list Message) : State :=
  mkState ms (isLoading s) (error s) (ctrl s) (aborted s) (next_ctrl s)
    (next_uuid s) (convRef s) (pending s).

(** [reload] up to the [await] of the inner [append]. *)
Definition reload (cfg : Config) (s : State) (options : option Options)
    : State * option nat :=
  match messages s with
  | [] => (s, None)
  | _ =>
    let idx := lastUserMessageIndex (messages s) in
    if Z.eqb idx (-1)%Z then (s, None) else
    let newMessages := firstn (Z.to_nat (idx + 1)%Z) (messages s) in
    match messages s !! Z.to_nat idx with
    | Some lastUserMessage =>
        append_start cfg (set_messages s newMessages) (content lastUserMessage)
          options
    | None => (set_messages s newMessages, None)
    end
  end.

(** The events of the hook: calls of [append], [reload], [stop], and the
    settlement of a fetch in flight.  A fetch whose signal was aborted
    can only reject. *)
Inductive step (cfg : Config) : State -> State -> Prop :=
| step_append s content options :
    step cfg s (append_start cfg s content options).1
| step_reload s options :
    step cfg s (reload cfg s options).1
| step_stop s :
    step cfg s (stop s)
| step_resolve s r data :
    r ∈ pending s -> req_ctrl r ∉ aborted s ->
    step cfg s (complete_ok s (req_ctrl r) data).1
| step_reject s r e :
    r ∈ pending s ->
    step cfg s (complete_err s (req_ctrl r) e).1.

Definition reachable (cfg : Config) (initialMessages : list Message)
    (initialId : option string) (uuid0 : nat) (s : State) : Prop :=
  rtc (step cfg) (init initialMessages initialId uuid0) s.

(** The configuration [Chat] uses. *)
Definition chat_cfg : Config := mkConfig (Some []) (Some []).

(** Every request in flight whose controller was not aborted is the one
    whose controller sits in [abortControllerRef]. *)
Definition live_inv (s : State) : Prop :=
  forall r, r ∈ pending s -> req_ctrl r ∉ aborted s -> ctrl s = Some (req_ctrl r).

(** Bookkeeping every reachable state keeps: [abortControllerRef] is
    never empty, controllers aborted or carried by a fetch were handed
    out before, a fetch in flight carries a non-blank, trimmed message,
    and while [isLoading] is set the request of the controller in
    [abortControllerRef] is in flight and not aborted. *)
Definition hook_inv (s : State) : Prop :=
  (exists k, ctrl s = Some k /\ k < next_ctrl s) /\
  (forall a, a ∈ aborted s -> a < next_ctrl s) /\
  (forall r, r ∈ pending s ->
     req_ctrl r < next_ctrl s /\ rb_message (req_body r) <> ""%string /\
     trim (rb_message (req_body r)) = rb_message (req_body r)) /\
  (isLoading s = true ->
     exists r, r ∈ pending s /\ ctrl s = Some (req_ctrl r) /\ req_ctrl r ∉ aborted s).

(** The controllers: the one in [abortControllerRef], the aborted ones
    and those carried by a fetch in flight were handed out before, and no
    two fetches in flight carry the same controller. *)
Definition ctrl_inv (s : State) : Prop :=
  (forall k, ctrl s = Some k -> k < next_ctrl s) /\
  (forall a, a ∈ aborted s -> a < next_ctrl s) /\
  (forall r, r ∈ pending s -> req_ctrl r < next_ctrl s) /\
  NoDup (map req_ctrl (pending s)).

(** The spec's reading of a failed or cancelled turn: the message list
    is exactly what it was before the call. *)
Definition failed_turn_leaves_messages : Prop :=
  forall cfg s content options s1 c e,
    append_start cfg s content options = (s1, Some c) ->
    messages (complete_err s1 c e).1 = messages s.

(** The spec's reading of a successful turn: the user turn carries the
    submitted text. *)
Definition turn_appends_submitted_text : Prop :=
  forall cfg s content options s1 c data,
    append_start cfg s content options = (s1, Some c) ->
    messages (complete_ok s1 c data).1 =
      messages s ++ [mkMessage (next_uuid s) user content [];
                     mkMessage (S (next_uuid s)) assistant (response data)
                       (cr_sources data)].

(** The spec's reading of a turn on a conversation that has one in
    flight: it is queued behind it or rejected, so the request in flight
    is never cancelled by it. *)
Definition in_flight_turn_undisturbed : Prop :=
  forall cfg ms cid u s r content options,
    reachable cfg ms cid u s -> r ∈ pending s -> req_ctrl r ∉ aborted s ->
    req_ctrl r ∉ aborted (append_start cfg s content options).1.

(** The claim's reading of [reload] on a list whose last user message is
    [m]: the list is cut after [m], a fresh user message with the same
    content follows it, then the assistant message. *)
Definition reload_duplicates_content : Prop :=
  forall cfg s options pre m post data,
    messages s = pre ++ [m] ++ post -> role m = user ->
    (forall m', m' ∈ post -> role m' <> user) ->
    exists s1 c,
      reload cfg s options = (s1, Some c) /\
      messages (complete_ok s1 c data).1 =
        pre ++ [m; mkMessage (next_uuid s) user (content m) [];
                mkMessage (S (next_uuid s)) assistant (response data)
                  (cr_sources data)].

End UseChat.

(* ================================================================== *)
(** ** The chat route: [chatRequestSchema] and [POST] *)
(* ================================================================== *)

Module ChatRoute.
Import ChatTypes.

(** JSON values as [request.json()] and [response.json()] produce them;
    numbers are integers here (the route never does arithmetic). *)
#[warnings="-register-all"]
Inductive json :=
| JNull
| JBool (b : bool)
| JNum (n : Z)
| JStr (s : string)
| JArr (l : list json)
| JObj (fields : list (string * json)).

(** Property read on a parsed object: [JSON.parse] keeps the last of
    duplicated keys. *)
Definition get_field (fs : list (string * json)) (k : string) : option json :=
  fold_left (fun acc (p : string * json) => if String.eqb k p.1 then Some p.2 else acc)
    fs None.

(** [body.message]: [None] is [undefined]; reading a property of [null]
    throws a [TypeError] (the outer [option]). *)
Definition read_message (body : json) : option (option json) :=
  match body with
  | JNull => None
  | JObj fs => Some (get_field fs "message")
  | _ => Some None
  end.

(** JavaScript truthiness of a JSON value ([undefined] is [None]). *)
Definition truthy (v : option json) : bool :=
  match v with
  | None | Some JNull => false
  | Some (JBool b) => b
  | Some (JNum n) => negb (Z.eqb n 0)
  | Some (JStr s) => negb (String.eqb s "")
  | Some (JArr _) | Some (JObj _) => true
  end.

(** The value [chatRequestSchema.parse] returns. *)
Record ChatRequest := mkChatRequest {
  message : string;
  req_conversation_id : option string;
  technologies : option (list string);
  categories : option (list string)
}.

(** [z.string().min(1)] *)
Definition parse_message (v : option json) : option string :=
  match v with
  | Some (JStr s) => if Nat.leb 1 (String.length s) then Some s else None
  | _ => None
  end.

(** [z.string().optional()]: an absent key parses to [undefined]. *)
Definition parse_opt_string (v : option json) : option (option string) :=
  match v with
  | None => Some None
  | Some (JStr s) => Some (Some s)
  | Some _ => None
  end.

Fixpoint parse_strings (l : list json) : option (list string) :=
  match l with
  | [] => Some []
  | JStr s :: r => match parse_strings r with Some r' => Some (s :: r') | None => None end
  | _ :: _ => None
  end.

(** [z.array(z.string()).optional()] *)
Definition parse_opt_strings (v : option json) : option (option (list string)) :=
  match v with
  | None => Some None
  | Some (JArr l) => match parse_strings l with Some l' => Some (Some l') | None => None end
  | Some _ => None
  end.

(** [chatRequestSchema.parse(body)]: an object is required, unknown keys
    are stripped; [None] is a thrown [ZodError]. *)
Definition chatRequestSchema_parse (body : json) : option ChatRequest :=
  match body with
  | JObj fs =>
    match parse_message (get_field fs "message"),
          parse_opt_string (get_field fs "conversation_id"),
          parse_opt_strings (get_field fs "technologies"),
          parse_opt_strings (get_field fs "categories") with
    | Some m, Some cid, Some t, Some c => Some (mkChatRequest m cid t c)
    | _, _, _, _ => None
    end
  | _ => None
  end.

Definition opt_field {A} (k : string) (f : A -> json) (v : option A)
    : list (string * json) :=
  match v with Some x => [(k, f x)] | None => [] end.

(** [JSON.stringify(validatedData)]: keys in the order of the schema, an
    [undefined] field left out. *)
Definition chatRequest_to_json (r : ChatRequest) : json :=
  JObj ([("message", JStr (message r))] ++
        opt_field "conversation_id" JStr (req_conversation_id r) ++
        opt_field "technologies" (fun l => JArr (map JStr l)) (technologies r) ++
        opt_field "categories" (fun l => JArr (map JStr l)) (categories r)).

(** The JSON shape of [interface Source]. *)
Definition source_to_json (x : Source) : json :=
  JObj [("technology", JStr (technology x)); ("file_path", JStr (file_path x));
        ("section_title", JStr (section_title x)); ("category", JStr (category x));
        ("score", JNum (score x)); ("content_preview", JStr (content_preview x));
        ("full_content", JStr (full_content x))].

(** The JSON shape of [interface ChatResponse]. *)
Definition chatResponse_to_json (r : ChatResponse) : json :=
  JObj [("conversation_id", JStr (conversation_id r)); ("response", JStr (response r));
        ("sources", JArr (map source_to_json (cr_sources r)))].

Definition keys (v : json) : list string :=
  match v with JObj fs => map fst fs | _ => [] end.

(** A [NextResponse]: its status and its JSON body. *)
Record Resp := mkResp { status : Z; payload : json }.

(** The back end's [/chat] endpoint: status and parsed body ([None] when
    the body is not JSON). *)
Definition Backend := json -> Z * option json.

Definition is_ok (st : Z) : bool := Z.leb 200 st && Z.leb st 299.

Definition invalid_request : Resp :=
  (* the [details] array of zod issues is left out *)
  mkResp 400 (JObj [("error", JStr "Invalid request data")]).

Definition internal_error : Resp :=
  mkResp 500 (JObj [("error", JStr "Internal server error")]).

(** The Fetch standard's null body statuses. *)
Definition null_body_status (st : Z) : bool :=
  Z.eqb st 101 || Z.eqb st 103 || Z.eqb st 204 || Z.eqb st 205 || Z.eqb st 304.

(** Whether [NextResponse.json(body, { status: st })] builds a response:
    [Response.json] throws a [RangeError] for a status outside 200-599 and a
    [TypeError] for a null body status with a body. *)
Definition json_status_ok (st : Z) : bool :=
  Z.leb 200 st && Z.leb st 599 && negb (null_body_status st).

(** [POST]; [body] is [None] when [request.json()] rejects. A throw of
    [NextResponse.json] lands in the [catch], which answers 500. *)
Definition POST (backend : Backend) (body : option json) : Resp :=
  match body with
  | None => internal_error
  | Some b =>
    match read_message b with
    | None => internal_error
    | Some msg =>
      if negb (truthy msg) then invalid_request else
      match chatRequestSchema_parse b with
      | None => invalid_request
      | Some validatedData =>
        let (st, rj) := backend (chatRequest_to_json validatedData) in
        if negb (is_ok st) then
          let detail := match rj with
                        | Some (JObj fs) => get_field fs "detail"
                        | _ => None
                        end in
          if json_status_ok st then
            mkResp st (JObj [("error", if truthy detail then
                                          match detail with Some d => d | None => JNull end
                                        else JStr "Backend API error");
                             ("status", JNum st)])
          else internal_error
        else match rj with
             | Some data => mkResp 200 data
             | None => internal_error
             end
      end
    end
  end.

(** The spec's reading of the query endpoint's input: an object whose
    text is under the key [text] is accepted and answered. *)
Definition query_accepts_text_field : Prop :=
  forall (backend : Backend) (t : string) (d : json),
    t <> "" -> (forall b, backend b = (200%Z, Some d)) ->
    POST backend (Some (JObj [("text", JStr t)])) = mkResp 200 d.

End ChatRoute.

(* ================================================================== *)
(** ** Change Tracker and Embedding Indexer *)
(* ================================================================== *)

(** The back end that tracks, chunks and embeds the documentation
    ([ragdocs_api/file_tracker.py], [markdown_processor.py],
    [rag_system.py]) is not among the sources; every definition of this
    module is modelled from the specification (sections 3, 4.1, 4.3, 7). *)
Module Indexer.

(** Modelled from the spec: a SourceDocument's identity, technology tag
    and path. *)
Abbreviation DocId := (string * string)%type (only parsing).

(** Modelled from the spec: a chunk id, derived from the document id and
    the section ordinal. *)
Abbreviation ChunkId := ((string * string) * nat)%type (only parsing).

(** Modelled from the spec: an EmbeddingRecord, its vector and the content
    hash copied from its chunk. *)
Record EmbeddingRecord := mkRecord {
  vector : list Z;
  rec_hash : Z
}.

(** Modelled from the spec: the IndexManifest (document id to content hash
    and chunk id set) and the vector index (chunk id to record). *)
Record Store := mkStore {
  manifest : gmap (string * string) (Z * gset ((string * string) * nat));
  index : gmap ((string * string) * nat) EmbeddingRecord
}.

(** Modelled from the spec: the manifest is empty on the first run. *)
Definition empty_store : Store := mkStore ∅ ∅.

(** Modelled from the spec: the Change Tracker's partition. *)
Record Partition := mkPartition {
  added : list (DocId * string);
  modified : list (DocId * string);
  unchanged : list (DocId * string);
  deleted : list DocId
}.

Section Indexing.

(** The external capabilities: the content hash, the Document Processor
    ([None] is a [ParseError], [Some] the chunk texts in order) and the
    embedding function after its retries ([None] is an
    [EmbeddingFailure] once retries are exhausted). *)
Variable hash : string -> Z.
Variable sections : string -> option (list string).
Variable embed : string -> option (list Z).

(** Modelled from the spec: the Change Tracker over a scan of the
    document tree (document id to raw content); it reads the manifest and
    does not change it. *)
Definition track (m : gmap (string * string) (Z * gset ((string * string) * nat)))
    (scan : gmap (string * string) string) : Partition :=
  let docs := map_to_list scan in
  mkPartition
    (List.filter (fun p : DocId * string =>
                    match m !! p.1 with None => true | Some _ => false end) docs)
    (List.filter (fun p : DocId * string =>
                    match m !! p.1 with
                    | Some (h, _) => negb (Z.eqb h (hash p.2))
                    | None => false
                    end) docs)
    (List.filter (fun p : DocId * string =>
                    match m !! p.1 with
                    | Some (h, _) => Z.eqb h (hash p.2)
                    | None => false
                    end) docs)
    (map fst (List.filter (fun p : DocId * (Z * gset ChunkId) =>
                             match scan !! p.1 with None => true | Some _ => false end)
                (map_to_list m))).

(** Modelled from the spec: the chunk ids of a document with [n] chunks. *)
Definition chunk_ids (d : DocId) (n : nat) : list ChunkId :=
  map (fun i => (d, i)) (seq 0 n).

(** Modelled from the spec: the document's chunks, id and text. *)
Definition chunks (d : DocId) (secs : list string) : list (ChunkId * string) :=
  zip (chunk_ids d (length secs)) secs.

(** Modelled from the spec: a chunk is present with a matching content
    hash. *)
Definition matching (idx : gmap ChunkId EmbeddingRecord) (c : ChunkId * string) : bool :=
  match idx !! c.1 with
  | Some r => Z.eqb (rec_hash r) (hash c.2)
  | None => false
  end.

(** Modelled from the spec: the chunks to embed, those not present with a
    matching content hash. *)
Definition to_embed (idx : gmap ChunkId EmbeddingRecord) (cs : list (ChunkId * string))
    : list (ChunkId * string) :=
  List.filter (fun c => negb (matching idx c)) cs.

(** Modelled from the spec: embed one chunk and upsert its record; on an
    [EmbeddingFailure] the chunk is left absent from the index. *)
Definition embed_into (idx : gmap ChunkId EmbeddingRecord) (c : ChunkId * string)
    : gmap ChunkId EmbeddingRecord :=
  match embed c.2 with
  | Some v => <[c.1 := mkRecord v (hash c.2)]> idx
  | None => delete c.1 idx
  end.

(** Modelled from the spec: drop the records of a set of chunk ids. *)
Definition drop_ids (idx : gmap ChunkId EmbeddingRecord) (ids : gset ChunkId)
    : gmap ChunkId EmbeddingRecord :=
  filter (fun p : ChunkId * EmbeddingRecord => p.1 ∉ ids) idx.

(** Modelled from the spec: the chunk ids a fresh parse produces. *)
Definition new_ids (d : DocId) (secs : list string) : gset ChunkId :=
  list_to_set (map fst (chunks d secs)).

(** Modelled from the spec: the chunk ids the manifest records for the
    document. *)
Definition old_ids (st : Store) (d : DocId) : gset ChunkId :=
  match manifest st !! d with Some (_, ids) => ids | None => ∅ end.

(** Modelled from the spec: the index once the records of chunk ids no
    longer produced are removed. *)
Definition kept_index (st : Store) (d : DocId) (secs : list string)
    : gmap ChunkId EmbeddingRecord :=
  drop_ids (index st) (old_ids st d ∖ new_ids d secs).

(** Modelled from the spec: the chunks sent to the embedding capability. *)
Definition embed_requests (st : Store) (d : DocId) (secs : list string)
    : list (ChunkId * string) :=
  to_embed (kept_index st d secs) (chunks d secs).

(** Modelled from the spec: the apply for an added or modified document:
    re-parse (a [ParseError] skips the document), remove the records of
    chunk ids no longer produced, embed the chunks not present with a
    matching hash, and last write the manifest entry (new hash, new chunk
    id set). *)
Definition apply_doc (st : Store) (d : DocId) (raw : string) : Store :=
  match sections raw with
  | None => st
  | Some secs =>
    mkStore (<[d := (hash raw, new_ids d secs)]> (manifest st))
      (fold_left embed_into (embed_requests st d secs) (kept_index st d secs))
  end.

(** Modelled from the spec: the apply for a deleted document. *)
Definition apply_delete (st : Store) (d : DocId) : Store :=
  match manifest st !! d with
  | Some (_, ids) => mkStore (delete d (manifest st)) (drop_ids (index st) ids)
  | None => st
  end.

(** Modelled from the spec: [apply(partition)]. *)
Definition apply (p : Partition) (st : Store) : Store :=
  fold_left (fun st (e : DocId * string) => apply_doc st e.1 e.2)
    (added p ++ modified p) (fold_left apply_delete (deleted p) st).

(** Modelled from the spec: one indexing pass, the Change Tracker then
    [apply]. *)
Definition index_pass (scan : gmap DocId string) (st : Store) : Store :=
  apply (track (manifest st) scan) st.

(** Modelled from the spec: the stores reachable from the empty store by
    [apply] calls. *)
Definition reachable (st : Store) : Prop :=
  rtc (fun st st' => exists p, st' = apply p st) empty_store st.

End Indexing.

(** Concrete capabilities for running the model on examples: the length
    as content hash, sections separated by ['#'] (an empty document is a
    [ParseError]), and an embedding that always succeeds or always
    fails. *)
Definition demo_hash (t : string) : Z := Z.of_nat (String.length t).

Fixpoint split_hash (t : string) (cur : string) : list string :=
  match t with
  | EmptyString => [cur]
  | String c r =>
    if Ascii.eqb c "#"%char then cur :: split_hash r "" else split_hash r (cur +:+ String c "")
  end.

Definition demo_sections (raw : string) : option (list string) :=
  if String.eqb raw "" then None else Some (split_hash raw "").

Definition demo_embed (t : string) : option (list Z) := Some [demo_hash t; 1%Z].

Definition failing_embed (t : string) : option (list Z) := None.

Definition doc_a : DocId := ("qdrant", "a.md").
Definition doc_b : DocId := ("milvus", "b.md").

(** Example document trees: one document with the sections ["Intro"],
    one with two sections, and an empty (unparsable) document. *)
Definition scan_intro : gmap DocId string := {[doc_a := "Intro"]}.
Definition scan_two : gmap DocId string := {[doc_a := "ab#cd"]}.
Definition scan_empty_doc : gmap DocId string := {[doc_b := ""]}.

(** The invariant of section 3: every chunk id of the manifest has a
    record and every record's chunk id is in the manifest entry of its
    document; [ids_owned] adds that a manifest entry only lists chunk ids
    of its own document. *)
Definition ids_owned (st : Store) : Prop :=
  forall d h ids c, manifest st !! d = Some (h, ids) -> c ∈ ids -> c.1 = d.

Definition manifest_has_records (st : Store) : Prop :=
  forall d h ids c, manifest st !! d = Some (h, ids) -> c ∈ ids ->
    is_Some (index st !! c).

Definition records_in_manifest (st : Store) : Prop :=
  forall c r, index st !! c = Some r ->
    exists h ids, manifest st !! c.1 = Some (h, ids) /\ c ∈ ids.

Definition consistent (st : Store) : Prop :=
  manifest_has_records st /\ records_in_manifest st.

(** The claim's reading of section 3: consistency holds in every store
    reachable by [apply] calls, whatever the capabilities do. *)
Definition always_consistent : Prop :=
  forall hash sections embed st, reachable hash sections embed st -> consistent st.

(** The claim's reading of section 4.1: a second pass over an unchanged
    tree changes nothing and its Change Tracker reports no change. *)
Definition indexing_idempotent : Prop :=
  forall hash sections embed scan st,
    let st1 := index_pass hash sections embed scan st in
    index_pass hash sections embed scan st1 = st1 /\
    added (track hash (manifest st1) scan) = [] /\
    modified (track hash (manifest st1) scan) = [] /\
    deleted (track hash (manifest st1) scan) = [].

End Indexer.

(* ================================================================== *)
(** ** Retriever *)
(* ================================================================== *)

(** The retriever ([ragdocs_api/rag_system.py]) is not among the sources;
    every definition of this module is modelled from the specification
    (section 4.4). *)
Module Retriever.

(** Modelled from the spec: a Chunk with its metadata. *)
Record Chunk := mkChunk {
  technology : string;
  category : string;
  file_path : string;
  section_title : string;
  position : nat;
  text : string
}.

(** Modelled from the spec: the search filters; [None] does not
    filter. *)
Record Filters := mkFilters {
  f_technologies : option (list string);
  f_categories : option (list string)
}.

(** Modelled from the spec: a chunk satisfies the filters. *)
Definition passes (f : Filters) (ch : Chunk) : bool :=
  match f_technologies f with
  | Some ts => existsb (String.eqb (technology ch)) ts
  | None => true
  end &&
  match f_categories f with
  | Some cs => existsb (String.eqb (category ch)) cs
  | None => true
  end.

Section Searching.

(** The similarity of the embedded query to a chunk's stored vector, as
    computed by the vector store capability. *)
Variable score : string -> Chunk -> Z.

(** Modelled from the spec: the merge order, score descending, then
    technology name, then chunk sequence position. *)
Definition rank_leb (a b : Chunk * Z) : bool :=
  Z.ltb b.2 a.2 ||
  (Z.eqb a.2 b.2 &&
   (String.ltb (technology a.1) (technology b.1) ||
    (String.eqb (technology a.1) (technology b.1) &&
     Nat.leb (position a.1) (position b.1)))).

(** Modelled from the spec: insert a scored chunk into a ranked list. *)
Fixpoint insert_by (a : Chunk * Z) (l : list (Chunk * Z)) : list (Chunk * Z) :=
  match l with
  | [] => [a]
  | b :: l' => if rank_leb a b then a :: l else b :: insert_by a l'
  end.

(** Modelled from the spec: the merge of the per-index results into one
    ranked list. *)
Fixpoint sort_by (l : list (Chunk * Z)) : list (Chunk * Z) :=
  match l with
  | [] => []
  | a :: l' => insert_by a (sort_by l')
  end.

(** Modelled from the spec: the query against one technology-scoped
    index, with the filters applied to its candidate chunks before
    ranking. *)
Definition query_index (q : string) (f : Filters) (ix : list Chunk) : list (Chunk * Z) :=
  map (fun ch => (ch, score q ch)) (List.filter (passes f) ix).

(** Modelled from the spec: [search(query_text, filters, top_k)]: fan out
    to every index, merge by the ranking order, keep the first [top_k]. *)
Definition search (indexes : list (string * list Chunk)) (q : string) (f : Filters)
    (top_k : nat) : list (Chunk * Z) :=
  firstn top_k (sort_by (flat_map (fun ix => query_index q f ix.2) indexes)).

End Searching.

(** The ranking's score order, used to state that a result list is
    ranked. *)
Definition score_ge (a b : Chunk * Z) : Prop := (b.2 <= a.2)%Z.

End Retriever.

(* ================================================================== *)
(** ** Answer Synthesizer *)
(* ================================================================== *)

(** The synthesizer is not among the sources; every definition of this
    module is modelled from the specification (section 4.5). *)
Module Synthesizer.
Import Retriever.

(** Modelled from the spec: a prior conversation turn. *)
Record Turn := mkTurn { turn_role : string; turn_text : string }.

(** Modelled from the spec: the prompt, the query, the dialogue history
    and the retrieved chunks as labeled context blocks. *)
Record Prompt := mkPrompt {
  p_query : string;
  p_history : list Turn;
  p_blocks : list (nat * Chunk)
}.

(** Modelled from the spec: a synthesized answer or a typed failure. *)
Inductive SynthResult :=
| SynthesisFailure
| Answer (answer_text : string) (sources_used : list (Chunk * Z)).

(** Modelled from the spec: number the context blocks from 0. *)
Definition labeled {A} (l : list A) : list (nat * A) := zip (seq 0 (length l)) l.

(** Modelled from the spec: the prompt of a call. *)
Definition build_prompt (q : string) (history : list Turn) (retrieved : list (Chunk * Z))
    : Prompt :=
  mkPrompt q history (labeled (map fst retrieved)).

(** Modelled from the spec: the retrieved chunks whose labels the model
    cites, in retrieval order. *)
Definition surfaced (retrieved : list (Chunk * Z)) (cited : list nat) : list (Chunk * Z) :=
  map snd (List.filter (fun p : nat * (Chunk * Z) => existsb (Nat.eqb p.1) cited)
             (labeled retrieved)).

Section Synthesis.

(** The language model capability: the answer text and the labels of the
    context blocks it cites, or [None] on a model error or timeout. *)
Variable generate : Prompt -> option (string * list nat).

(** Modelled from the spec: [synthesize(query, history, retrieved_chunks)]. *)
Definition synthesize (q : string) (history : list Turn) (retrieved : list (Chunk * Z))
    : SynthResult :=
  match generate (build_prompt q history retrieved) with
  | None => SynthesisFailure
  | Some (answer, cited) => Answer answer (surfaced retrieved cited)
  end.

End Synthesis.

(** Two example chunks. *)
Definition chunk_x : Chunk := mkChunk "qdrant" "guide" "a.md" "Intro" 0 "x".
Definition chunk_y : Chunk := mkChunk "qdrant" "guide" "a.md" "Scaling" 1 "y".

End Synthesizer.

(* ================================================================== *)
(** ** More of the hook and its callers *)
(* ================================================================== *)

Module ChatHelpers.
Import ChatTypes JsString UseChat ChatRoute.

(** [handleSubmit(e, options)] of [useChat]: nothing when the input is
    blank, otherwise [append(input.trim(), options)] runs up to its
    [await] and [setInput('')]; the components are the state, the input
    and the controller of the request sent. *)
Definition handleSubmit (cfg : Config) (s : State) (input : string)
    (options : option Options) : State * string * option nat :=
  if String.eqb (trim input) "" then (s, input, None) else
  let (s', c) := append_start cfg s (trim input) options in
  (s', "", c).

(** [updateConversationId(newId)]: the new value of [conversationIdRef]
    and the routes passed to [router.push]. *)
Definition updateConversationId (current : option string) (newId : string)
    : option string * list string :=
  match current with
  | Some cur => if String.eqb newId cur then (current, []) else (Some newId, ["/chat/" ++ newId])
  | None => (Some newId, ["/chat/" ++ newId])
  end%string.

(** [JSON.stringify(requestBody)] in [append]: an [undefined]
    [conversation_id] is left out. *)
Definition requestBody_to_json (rb : RequestBody) : json :=
  JObj ([("message", JStr (rb_message rb))] ++
        opt_field "conversation_id" JStr (rb_conversation_id rb) ++
        [("technologies", JArr (map JStr (rb_technologies rb)));
         ("categories", JArr (map JStr (rb_categories rb)))]).

(** [handleTechnologyToggle(technologyId)] of [ChatInput]
    ([frontend/src/components/custom/chat-input.tsx]), the updater passed
    to [setSelectedTechnologies]. *)
Definition toggle_technology (prev : list string) (technologyId : string) : list string :=
  if existsb (String.eqb technologyId) prev
  then List.filter (fun id => negb (String.eqb id technologyId)) prev
  else prev ++ [technologyId].

(** The condition under which [Chat]
    ([ragdocs_frontend/src/components/custom/chat.tsx]) renders
    [<LoadingMessages />]: [isLoading && messages.length > 0 &&
    messages[messages.length - 1].role === 'user']. *)
Definition show_loading_messages (messages : list Message) (isLoading : bool) : bool :=
  isLoading && Nat.ltb 0 (length messages) &&
  match messages !! (length messages - 1) with
  | Some m => role_eqb (role m) user
  | None => false
  end.

(** The message list ends with a user message. *)
Definition ends_with_user (ms : list Message) : Prop :=
  exists pre m, ms = pre ++ [m] /\ role m = user.

End ChatHelpers.

(* ================================================================== *)
(** ** The chat page: [getChat], [ChatPage], [generateMetadata] *)
(* ================================================================== *)

Module ChatPage.
Import ChatRoute.

(** What [fetch] gives: [None] when it rejects, otherwise the status and
    the parsed body ([None] when [response.json()] rejects). *)
Definition Reply := option (Z * option json).

(** [data?.messages] *)
Definition messages_of (data : json) : option json :=
  match data with
  | JObj fs => get_field fs "messages"
  | _ => None
  end.

(** [getChat(id)] on the reply of [GET /conversations/{id}]: [None] is
    [null], [Some v] is [{ messages: v }].  A non-404 failure throws and
    is caught, so it also gives [null]. *)
Definition getChat (r : Reply) : option json :=
  match r with
  | None => None
  | Some (st, body) =>
    if negb (is_ok st) then (if Z.eqb st 404 then None else None) else
    match body with
    | None => None
    | Some data =>
      if negb (truthy (messages_of data)) then Some (JArr [])
      else match messages_of data with Some m => Some m | None => Some (JArr []) end
    end
  end.

(** What [ChatPage] renders. *)
Inductive Page :=
| ChatView (initialMessages : json) (initialId : option string)
| NotFound.

(** [ChatPage({ params })] for the route parameter [id]; [r] is the reply
    [getChat(id)] would get. *)
Definition ChatPage (id : string) (r : Reply) : Page :=
  if String.eqb id "new" then ChatView (JArr []) None else
  match getChat r with
  | None => NotFound
  | Some ms => ChatView ms (Some id)
  end.

(** [generateMetadata({ params })]: title and description.  [getChat]
    catches every error, so the [catch] branch is not reached. *)
Definition generateMetadata (id : string) (r : Reply) : string * string :=
  if String.eqb id "new" then
    ("New Chat", "Start a new conversation with your vector database assistant")
  else match getChat r with
  | None => ("Chat Not Found", "The requested chat could not be found")
  | Some _ => ("Chat", "Continue your conversation with your vector database assistant")
  end.

(** [GET_SINGLE_CONVERSATION] of the history route on the reply of
    [GET /conversations/{id}]. *)
Definition GET_SINGLE_CONVERSATION (r : Reply) : Resp :=
  let failed := mkResp 500 (JObj [("error", JStr "Failed to fetch conversation")]) in
  match r with
  | None => failed
  | Some (st, body) =>
    if Z.eqb st 404 then mkResp 404 (JObj [("error", JStr "Conversation not found")]) else
    if negb (is_ok st) then failed else
    match body with
    | Some data => mkResp 200 data
    | None => failed
    end
  end.

(** [GET] of the history route (all conversations) on the reply of
    [GET /conversations]: every failure, a 404 included, is a 500. *)
Definition GET (r : Reply) : Resp :=
  let failed := mkResp 500 (JObj [("error", JStr "Failed to fetch conversations")]) in
  match r with
  | None => failed
  | Some (st, body) =>
    if negb (is_ok st) then failed else
    match body with
    | Some data => mkResp 200 data
    | None => failed
    end
  end.

(** [DELETE] of the history route on the reply of
    [DELETE /conversations/{id}]: the status and the JSON body, [None]
    for the empty body of [new NextResponse(null, { status: 204 })].  The
    back end's body is never read. *)
Definition DELETE (r : Reply) : Z * option json :=
  let failed := (500%Z, Some (JObj [("error", JStr "Failed to delete conversation")])) in
  match r with
  | None => failed
  | Some (st, _) =>
    if Z.eqb st 404 then (404%Z, Some (JObj [("error", JStr "Conversation not found")])) else
    if negb (is_ok st) then failed else (204%Z, None)
  end.

End ChatPage.

(* ================================================================== *)
(** ** Documentation links of [SourceItem] and [SourceDetails] *)
(* ================================================================== *)

Module SourceLinks.
Import ChatTypes.

(** [s.startsWith(pat)] *)
Fixpoint starts_with (pat s : string) : bool :=
  match pat, s with
  | EmptyString, _ => true
  | String a p, String b r => Ascii.eqb a b && starts_with p r
  | String _ _, EmptyString => false
  end.

Fixpoint drop_str (n : nat) (s : string) : string :=
  match n, s with
  | O, _ => s
  | S n', String _ r => drop_str n' r
  | S _, EmptyString => EmptyString
  end.

(** [s.replace(pat, rep)] with a string pattern: the first occurrence
    only. *)
Fixpoint replace_first (pat rep s : string) : string :=
  if starts_with pat s then rep ++ drop_str (String.length pat) s else
  match s with
  | EmptyString => EmptyString
  | String c r => String c (replace_first pat rep r)
  end.

(** [s.split(c)[0]] *)
Fixpoint before_char (c : ascii) (s : string) : string :=
  match s with
  | EmptyString => EmptyString
  | String a r => if Ascii.eqb a c then EmptyString else String a (before_char c r)
  end.

(** [s.split(c).pop()], the segment after the last [c]; [cur] is the
    segment read so far. *)
Fixpoint after_last (c : ascii) (s cur : string) : string :=
  match s with
  | EmptyString => cur
  | String a r => if Ascii.eqb a c then after_last c r "" else after_last c r (cur ++ String a "")
  end.

Fixpoint has_char (c : ascii) (s : string) : bool :=
  match s with
  | EmptyString => false
  | String a r => Ascii.eqb a c || has_char c r
  end.

Definition weaviate_base := "https://weaviate.io/developers/weaviate/".

(** The [doc_url] of [SourceItem]. *)
Definition item_doc_url (source : Source) : string :=
  if String.eqb (technology source) "milvus" then
    "https://milvus.io/docs/" ++ after_last "/" (file_path source) ""
  else if String.eqb (technology source) "weaviate" then
    "https://weaviate.io/developers/weaviate/" ++
      before_char "." (replace_first "index" ""
                         (replace_first "data/weaviate_docs/" "" (file_path source)))
  else if String.eqb (technology source) "qdrant" then
    "https://qdrant.tech/" ++
      before_char "." (replace_first "data/qdrant_docs/" "" (file_path source))
  else "".

(** The [doc_url] of [SourceDetails]: it removes ["/index"] where
    [SourceItem] removes ["index"]. *)
Definition details_doc_url (source : Source) : string :=
  if String.eqb (technology source) "milvus" then
    "https://milvus.io/docs/" ++ after_last "/" (file_path source) ""
  else if String.eqb (technology source) "weaviate" then
    "https://weaviate.io/developers/weaviate/" ++
      before_char "." (replace_first "/index" ""
                         (replace_first "data/weaviate_docs/" "" (file_path source)))
  else if String.eqb (technology source) "qdrant" then
    "https://qdrant.tech/" ++
      before_char "." (replace_first "data/qdrant_docs/" "" (file_path source))
  else "".

End SourceLinks.

(* ================================================================== *)
(** * Properties *)
(* ================================================================== *)

Module UseChatFacts.
Import ChatTypes JsString UseChat.

Example trim_spaces : trim "  hi " = "hi".
Proof. reflexivity. Qed.

Example trim_blank : trim (String (ascii_of_nat 9) " ") = "".
Proof. reflexivity. Qed.

Example reload_example :
  let s := set_messages (init [] None 10)
             [mkMessage 1 user "a" []; mkMessage 2 assistant "x" []] in
  (reload chat_cfg s None).2 = Some 1 /\
  map content (messages (reload chat_cfg s None).1) = ["a"; "a"].
Proof. split; reflexivity. Qed.

(** *** Turns that fail or are cancelled *)

Lemma append_start_sent cfg s content options s1 c :
  append_start cfg s content options = (s1, Some c) ->
  trim content <> "" /\ c = next_ctrl s /\
  messages s1 = messages s ++ [mkMessage (next_uuid s) user (trim content) []] /\
  next_uuid s1 = S (next_uuid s).
Proof.
  unfold append_start. destruct (String.eqb_spec (trim content) "") as [E|E].
  - discriminate.
  - intros H; inversion H; subst; simpl. auto.
Qed.

(** C2 (counterexample).  A turn whose request fails leaves the user
    message it appended: from an empty chat, [append "hi"] followed by
    the rejection of its fetch leaves one message, not none. *)
Lemma C2_failed_turn_keeps_user_message : ~ failed_turn_leaves_messages.
Proof.
  intros H.
  specialize (H chat_cfg (init [] None 0) "hi" None _ 1 "aborted" eq_refl).
  discriminate H.
Qed.

(** C2 (amended).  When a turn fails or is cancelled (by [stop], or by a
    later [append] that aborts its controller), no assistant message is
    appended for it: the error path that settles its request leaves the
    message list as it is, and the user message [append] pushed before
    sending the request stays.  When the request rejects right after
    [append], or after [stop], the list is the list before the call plus
    that one user message; when a later [append] has aborted it, the list
    also holds the later call's user message. *)
Theorem C2_failed_turn_appends_only_user_message cfg s content options s1 c e :
  append_start cfg s content options = (s1, Some c) ->
  messages s1 = messages s ++ [mkMessage (next_uuid s) user (trim content) []] /\
  (forall t, messages (complete_err t c e).1 = messages t) /\
  messages (complete_err s1 c e).1 =
    messages s ++ [mkMessage (next_uuid s) user (trim content) []] /\
  messages (complete_err (stop s1) c e).1 =
    messages s ++ [mkMessage (next_uuid s) user (trim content) []] /\
  (forall content' options' s2 c',
     append_start cfg s1 content' options' = (s2, Some c') ->
     c ∈ aborted s2 /\
     messages (complete_err s2 c e).1 =
       messages s ++ [mkMessage (next_uuid s) user (trim content) [];
                      mkMessage (S (next_uuid s)) user (trim content') []]).
Proof.
  intros H. unfold append_start in H.
  destruct (String.eqb_spec (trim content) "") as [E|E]; [discriminate|].
  injection H as <- <-. simpl.
  split; [reflexivity|]. split; [reflexivity|].
  split; [reflexivity|]. split; [reflexivity|].
  intros content' options' s2 c' H2. unfold append_start in H2. simpl in H2.
  destruct (String.eqb (trim content') ""); [discriminate|].
  injection H2 as <- <-. simpl.
  split; [apply elem_of_cons; left; reflexivity|].
  rewrite <- app_assoc. reflexivity.
Qed.

Lemma C2_failed_turn_appends_only_user_message_witness :
  append_start chat_cfg (init [] None 0) "hi" None =
    ((append_start chat_cfg (init [] None 0) "hi" None).1, Some 1) /\
  messages (complete_err (append_start chat_cfg (init [] None 0) "hi" None).1
              1 "aborted").1 = [mkMessage 0 user "hi" []].
Proof.
  split; [reflexivity|].
  destruct (C2_failed_turn_appends_only_user_message chat_cfg (init [] None 0)
              "hi" None _ 1 "aborted" eq_refl) as (_ & _ & H & _).
  exact H.
Defined.

(** *** Successful turns *)

(** C3 (counterexample).  The user message holds the trimmed text, not
    the submitted one, and the value [append] returns is
    [data.conversation_id] alone: two responses with different answers
    and sources give the same result. *)
Lemma C3_turn_result_is_conversation_id_only :
  ~ turn_appends_submitted_text /\
  (complete_ok (append_start chat_cfg (init [] None 0) "q" None).1 1
     (mkChatResponse "c1" "first answer" [])).2 =
  (complete_ok (append_start chat_cfg (init [] None 0) "q" None).1 1
     (mkChatResponse "c1" "second answer"
        [mkSource "qdrant" "a.md" "Intro" "guides" 1 "p" "full"])).2.
Proof.
  split; [|reflexivity].
  intros H.
  specialize (H chat_cfg (init [] None 0) " hi " None _ 1
                (mkChatResponse "c1" "answer" []) eq_refl).
  discriminate H.
Qed.

(** C3 (amended).  A call of [append] that sends its request and gets a
    response appends exactly the user message (trimmed text, no sources)
    and then the assistant message (the response text and its sources),
    stores a non-empty [conversation_id] in [conversationIdRef], and
    returns that [conversation_id]. *)
Theorem C3_successful_turn_appends_two_messages cfg s content options s1 c data :
  append_start cfg s content options = (s1, Some c) ->
  let (s2, ret) := complete_ok s1 c data in
  messages s2 =
    messages s ++ [mkMessage (next_uuid s) user (trim content) [];
                   mkMessage (S (next_uuid s)) assistant (response data)
                     (cr_sources data)] /\
  ret = RId (conversation_id data) /\
  convRef s2 = (if String.eqb (conversation_id data) "" then convRef s
                else Some (conversation_id data)) /\
  trim content <> "".
Proof.
  intros H. pose proof H as H'.
  destruct (append_start_sent _ _ _ _ _ _ H) as (Hne & _ & Hm & Hu).
  unfold append_start in H'.
  destruct (String.eqb_spec (trim content) "") as [E|E]; [discriminate|].
  injection H' as <- <-.
  unfold complete_ok; simpl. rewrite <- app_assoc. auto.
Qed.

Lemma C3_successful_turn_appends_two_messages_witness :
  append_start chat_cfg (init [] None 0) " hi " None =
    ((append_start chat_cfg (init [] None 0) " hi " None).1, Some 1) /\
  messages (complete_ok (append_start chat_cfg (init [] None 0) " hi " None).1 1
              (mkChatResponse "c1" "answer" [])).1 =
    [mkMessage 0 user "hi" []; mkMessage 1 assistant "answer" []].
Proof.
  split; [reflexivity|].
  pose proof (C3_successful_turn_appends_two_messages chat_cfg (init [] None 0)
                " hi " None _ 1 (mkChatResponse "c1" "answer" []) eq_refl) as H.
  destruct (complete_ok _ _ _) as [s2 ret] eqn:E. simpl.
  destruct H as [H _]. exact H.
Defined.

(** *** Requests in flight *)

Lemma remove_req_sub c rs r : r ∈ remove_req c rs -> r ∈ rs.
Proof.
  unfold remove_req. rewrite !list_elem_of_In, filter_In. tauto.
Qed.

Lemma live_inv_init ms cid u : live_inv (init ms cid u).
Proof. intros r Hr. simpl in Hr. apply elem_of_nil in Hr. contradiction. Qed.

Lemma live_inv_append_start cfg s content options :
  live_inv s -> live_inv (append_start cfg s content options).1.
Proof.
  intros Hinv. unfold append_start.
  destruct (String.eqb (trim content) ""); [exact Hinv|].
  intros r Hr Hna; simpl in *.
  apply elem_of_app in Hr as [Hr|Hr].
  - destruct (ctrl s) as [k|] eqn:Ec.
    + apply not_elem_of_cons in Hna as [Hk Hna].
      specialize (Hinv r Hr Hna). rewrite Ec in Hinv. congruence.
    + specialize (Hinv r Hr Hna). congruence.
  - apply list_elem_of_singleton in Hr. subst r. reflexivity.
Qed.

Lemma live_inv_set_messages s ms : live_inv s -> live_inv (set_messages s ms).
Proof. intros Hinv. exact Hinv. Qed.

Lemma live_inv_reload cfg s options :
  live_inv s -> live_inv (reload cfg s options).1.
Proof.
  intros Hinv. unfold reload.
  destruct (messages s); [exact Hinv|].
  destruct (Z.eqb _ _); [exact Hinv|].
  destruct (_ !! _).
  - apply live_inv_append_start. exact Hinv.
  - exact Hinv.
Qed.

Lemma live_inv_stop s : live_inv s -> live_inv (stop s).
Proof.
  intros Hinv. unfold stop. destruct (ctrl s) as [k|] eqn:Ec; [|exact Hinv].
  intros r Hr Hna; simpl in *. apply not_elem_of_cons in Hna as [_ Hna].
  rewrite <- Ec. exact (Hinv r Hr Hna).
Qed.

Lemma live_inv_complete_ok s c data :
  live_inv s -> live_inv (complete_ok s c data).1.
Proof.
  intros Hinv r Hr Hna; simpl in *. apply remove_req_sub in Hr. auto.
Qed.

Lemma live_inv_complete_err s c e :
  live_inv s -> live_inv (complete_err s c e).1.
Proof.
  intros Hinv r Hr Hna; simpl in *. apply remove_req_sub in Hr. auto.
Qed.

Lemma live_inv_step cfg s s' : step cfg s s' -> live_inv s -> live_inv s'.
Proof.
  destruct 1.
  - apply live_inv_append_start.
  - apply live_inv_reload.
  - apply live_inv_stop.
  - apply live_inv_complete_ok.
  - apply live_inv_complete_err.
Qed.

Lemma reachable_live_inv cfg ms cid u s :
  reachable cfg ms cid u s -> live_inv s.
Proof.
  unfold reachable. intros H.
  remember (init ms cid u) as s0 eqn:E.
  assert (live_inv s0) by (subst; apply live_inv_init). clear E.
  induction H; eauto using live_inv_step.
Qed.

Lemma NoDup_map_remove_req c rs :
  NoDup (map req_ctrl rs) -> NoDup (map req_ctrl (remove_req c rs)).
Proof.
  induction rs as [|r rs IH]; intros Hnd; [exact Hnd|].
  simpl in Hnd. apply NoDup_cons in Hnd as [Hn Hnd].
  unfold remove_req; simpl. destruct (negb (Nat.eqb (req_ctrl r) c)); simpl.
  - apply NoDup_cons. split; [|exact (IH Hnd)].
    intros Hin. apply Hn. apply list_elem_of_In, in_map_iff in Hin as (r' & <- & Hr').
    apply list_elem_of_In, in_map_iff. exists r'. split; [reflexivity|].
    apply list_elem_of_In. apply list_elem_of_In in Hr'.
    exact (remove_req_sub _ _ _ Hr').
  - exact (IH Hnd).
Qed.

Lemma ctrl_inv_init ms cid u : ctrl_inv (init ms cid u).
Proof.
  unfold ctrl_inv; simpl. split; [intros k Hk; injection Hk as <-; lia|].
  split; [intros a Ha; apply elem_of_nil in Ha; contradiction|].
  split; [intros r Hr; apply elem_of_nil in Hr; contradiction|].
  apply NoDup_nil_2.
Qed.

Lemma ctrl_inv_append_start cfg s content options :
  ctrl_inv s -> ctrl_inv (append_start cfg s content options).1.
Proof.
  intros (Hk & Ha & Hp & Hnd). unfold append_start.
  destruct (String.eqb (trim content) ""); [repeat split; assumption|].
  unfold ctrl_inv; simpl. split; [intros k E; injection E as <-; lia|].
  split.
  { intros a Hin. destruct (ctrl s) as [k|] eqn:Ec.
    - apply elem_of_cons in Hin as [->|Hin]; [specialize (Hk k eq_refl)|specialize (Ha a Hin)]; lia.
    - specialize (Ha a Hin). lia. }
  split.
  { intros r Hin. apply elem_of_app in Hin as [Hin|Hin].
    - specialize (Hp r Hin). lia.
    - apply list_elem_of_singleton in Hin. subst r. simpl. lia. }
  rewrite map_app. simpl. apply NoDup_app. split; [exact Hnd|]. split.
  - intros x Hx Hx'. apply list_elem_of_singleton in Hx'. subst x.
    apply list_elem_of_In, in_map_iff in Hx as (r & Er & Hr).
    apply list_elem_of_In in Hr. specialize (Hp r Hr). lia.
  - apply NoDup_singleton.
Qed.

Lemma ctrl_inv_reload cfg s options :
  ctrl_inv s -> ctrl_inv (reload cfg s options).1.
Proof.
  intros Hinv. unfold reload.
  destruct (messages s); [exact Hinv|].
  destruct (Z.eqb _ _); [exact Hinv|].
  destruct (_ !! _).
  - apply ctrl_inv_append_start. exact Hinv.
  - exact Hinv.
Qed.

Lemma ctrl_inv_stop s : ctrl_inv s -> ctrl_inv (stop s).
Proof.
  intros Hinv. unfold stop.
  destruct (ctrl s) as [k|] eqn:Ec; [|exact Hinv].
  destruct Hinv as (Hk & Ha & Hp & Hnd).
  unfold ctrl_inv; simpl. split; [rewrite <- Ec; exact Hk|]. split; [|auto].
  intros a Hin. apply elem_of_cons in Hin as [->|Hin]; [exact (Hk k Ec)|exact (Ha a Hin)].
Qed.

Lemma ctrl_inv_complete_ok s c data :
  ctrl_inv s -> ctrl_inv (complete_ok s c data).1.
Proof.
  intros (Hk & Ha & Hp & Hnd). unfold ctrl_inv; simpl.
  split; [exact Hk|]. split; [exact Ha|]. split.
  - intros r Hr. apply remove_req_sub in Hr. auto.
  - apply NoDup_map_remove_req. exact Hnd.
Qed.

Lemma ctrl_inv_complete_err s c e :
  ctrl_inv s -> ctrl_inv (complete_err s c e).1.
Proof.
  intros (Hk & Ha & Hp & Hnd). unfold ctrl_inv; simpl.
  split; [exact Hk|]. split; [exact Ha|]. split.
  - intros r Hr. apply remove_req_sub in Hr. auto.
  - apply NoDup_map_remove_req. exact Hnd.
Qed.

Lemma ctrl_inv_step cfg s s' : step cfg s s' -> ctrl_inv s -> ctrl_inv s'.
Proof.
  destruct 1.
  - apply ctrl_inv_append_start.
  - apply ctrl_inv_reload.
  - apply ctrl_inv_stop.
  - apply ctrl_inv_complete_ok.
  - apply ctrl_inv_complete_err.
Qed.

Lemma reachable_ctrl_inv cfg ms cid u s :
  reachable cfg ms cid u s -> ctrl_inv s.
Proof.
  unfold reachable. intros H.
  remember (init ms cid u) as s0 eqn:E.
  assert (ctrl_inv s0) by (subst; apply ctrl_inv_init). clear E.
  induction H; eauto using ctrl_inv_step.
Qed.

(** Two fetches in flight carrying the same controller are the same. *)
Lemma NoDup_map_inj (rs : list Request) r1 r2 :
  NoDup (map req_ctrl rs) -> r1 ∈ rs -> r2 ∈ rs -> req_ctrl r1 = req_ctrl r2 ->
  r1 = r2.
Proof.
  induction rs as [|r rs IH]; intros Hnd H1 H2 E.
  - apply elem_of_nil in H1. contradiction.
  - simpl in Hnd. apply NoDup_cons in Hnd as [Hn Hnd].
    apply elem_of_cons in H1 as [->|H1]; apply elem_of_cons in H2 as [->|H2].
    + reflexivity.
    + exfalso. apply Hn. rewrite E. apply list_elem_of_In, in_map.
      apply list_elem_of_In. exact H2.
    + exfalso. apply Hn. rewrite <- E. apply list_elem_of_In, in_map.
      apply list_elem_of_In. exact H1.
    + exact (IH Hnd H1 H2 E).
Qed.

(** What a call of [append] that sends its request does to the
    controllers: every fetch already in flight is aborted (given
    [live_inv]), the fresh controller is not aborted and sits in
    [abortControllerRef], and its request joins those in flight. *)
Lemma append_start_aborts cfg s content options s1 c :
  live_inv s -> ctrl_inv s ->
  append_start cfg s content options = (s1, Some c) ->
  (forall r, r ∈ pending s -> req_ctrl r ∈ aborted s1) /\
  (c ∉ aborted s1) /\ ctrl s1 = Some c /\
  exists b, pending s1 = pending s ++ [mkRequest c b].
Proof.
  intros Hinv (Hk & Ha & _ & _) Hs. unfold append_start in Hs.
  destruct (String.eqb (trim content) ""); [discriminate|].
  injection Hs as <- <-. simpl. split; [|split; [|split; [reflexivity|eexists; reflexivity]]].
  - intros r Hp. destruct (decide (req_ctrl r ∈ aborted s)) as [Hin|Hin].
    + destruct (ctrl s); [apply elem_of_cons; right|]; exact Hin.
    + rewrite (Hinv r Hp Hin). apply elem_of_cons. left. reflexivity.
  - destruct (ctrl s) as [k|] eqn:Ec.
    + intros Hin. apply elem_of_cons in Hin as [E|Hin].
      * specialize (Hk k eq_refl). lia.
      * specialize (Ha _ Hin). lia.
    + intros Hin. specialize (Ha _ Hin). lia.
Qed.

(** A [reload] that sends a request is a call of [append] on the state
    with the list cut. *)
Lemma reload_sent cfg s options s1 c :
  reload cfg s options = (s1, Some c) ->
  exists ms content, append_start cfg (set_messages s ms) content options = (s1, Some c).
Proof.
  unfold reload. destruct (messages s); [discriminate|].
  destruct (Z.eqb _ _); [discriminate|].
  destruct (_ !! _); [eauto|discriminate].
Qed.

(** A reachable state with a request in flight: [append "a"] from a
    fresh chat. *)
Lemma reachable_after_first_append :
  reachable chat_cfg [] None 0 (append_start chat_cfg (init [] None 0) "a" None).1.
Proof. apply rtc_once. apply step_append. Qed.

(** C9 (counterexample).  A second [append] while the first request is
    in flight is neither queued nor rejected: it aborts the first
    request's controller and sends its own request. *)
Lemma C9_second_append_aborts_first : ~ in_flight_turn_undisturbed.
Proof.
  intros H.
  refine (H chat_cfg [] None 0 _ (mkRequest 1 (mkRequestBody "a" None [] []))
            "b" None reachable_after_first_append _ _ _).
  - simpl. apply list_elem_of_singleton. reflexivity.
  - simpl. apply not_elem_of_cons. split; [lia|]. intros Hn. apply elem_of_nil in Hn. exact Hn.
  - simpl. apply elem_of_cons. left. reflexivity.
Qed.

(** C9 (amended).  Within one chat hook, a call of [append] (or of
    [reload]) that sends a request while another is in flight neither
    queues nor rejects: it aborts the controller of every request already
    in flight and sends its own request under a fresh controller, which
    is not aborted and is the one in [abortControllerRef].  In every
    reachable state at most one request in flight has a controller that
    was not aborted, and that controller is the one in
    [abortControllerRef]. *)
Theorem C9_one_live_request cfg ms cid u s :
  reachable cfg ms cid u s ->
  (forall r1 r2, r1 ∈ pending s -> r2 ∈ pending s ->
     req_ctrl r1 ∉ aborted s -> req_ctrl r2 ∉ aborted s -> r1 = r2) /\
  (forall r, r ∈ pending s -> req_ctrl r ∉ aborted s -> ctrl s = Some (req_ctrl r)) /\
  (forall content options s1 c,
     append_start cfg s content options = (s1, Some c) ->
     (forall r, r ∈ pending s -> req_ctrl r ∈ aborted s1) /\
     (c ∉ aborted s1) /\ ctrl s1 = Some c /\
     exists b, pending s1 = pending s ++ [mkRequest c b]) /\
  (forall options s1 c,
     reload cfg s options = (s1, Some c) ->
     (forall r, r ∈ pending s -> req_ctrl r ∈ aborted s1) /\
     (c ∉ aborted s1) /\ ctrl s1 = Some c /\
     exists b, pending s1 = pending s ++ [mkRequest c b]).
Proof.
  intros Hr.
  pose proof (reachable_live_inv _ _ _ _ _ Hr) as Hinv.
  pose proof (reachable_ctrl_inv _ _ _ _ _ Hr) as Hci.
  split; [|split; [exact Hinv|split]].
  - intros r1 r2 H1 H2 N1 N2.
    pose proof (Hinv r1 H1 N1). pose proof (Hinv r2 H2 N2).
    destruct Hci as (_ & _ & _ & Hnd).
    apply (NoDup_map_inj _ _ _ Hnd H1 H2). congruence.
  - intros content options s1 c Hs. exact (append_start_aborts _ _ _ _ _ _ Hinv Hci Hs).
  - intros options s1 c Hs.
    destruct (reload_sent _ _ _ _ _ Hs) as (ms' & content & Ha).
    exact (append_start_aborts _ _ _ _ _ _ (live_inv_set_messages s ms' Hinv) Hci Ha).
Qed.

Lemma C9_one_live_request_witness :
  reachable chat_cfg [] None 0 (append_start chat_cfg (init [] None 0) "a" None).1 /\
  1 ∈ aborted (append_start chat_cfg
                 (append_start chat_cfg (init [] None 0) "a" None).1 "b" None).1.
Proof.
  split; [exact reachable_after_first_append|].
  destruct (C9_one_live_request chat_cfg [] None 0 _ reachable_after_first_append)
    as (_ & _ & H & _).
  destruct (H "b" None _ 2 eq_refl) as (Hab & _).
  exact (Hab (mkRequest 1 (mkRequestBody "a" None [] []))
           (proj2 (elem_of_app _ _ _) (or_intror
              (proj2 (list_elem_of_singleton _ _) eq_refl)))).
Defined.

(** *** [reload] *)

Lemma role_eqb_user r : role_eqb r user = true <-> r = user.
Proof. destruct r; simpl; split; congruence. Qed.

Lemma lum_fold_no_user k (l : list Message) :
  (forall m', m' ∈ l -> role m' <> user) ->
  fold_right lum_step (-1)%Z (zip (seq k (length l)) l) = (-1)%Z.
Proof.
  revert k. induction l as [|x l IH]; intros k Hl; [reflexivity|].
  simpl. rewrite IH.
  - unfold lum_step; simpl.
    destruct (role_eqb (role x) user) eqn:E; [|reflexivity].
    apply role_eqb_user in E. exfalso. apply (Hl x); [apply elem_of_cons; auto|exact E].
  - intros m' Hm. apply Hl. apply elem_of_cons. auto.
Qed.

Lemma lum_fold_last_user k pre m post :
  role m = user -> (forall m', m' ∈ post -> role m' <> user) ->
  fold_right lum_step (-1)%Z
    (zip (seq k (length (pre ++ m :: post))) (pre ++ m :: post)) =
  Z.of_nat (k + length pre).
Proof.
  intros Hm Hpost. revert k. induction pre as [|x pre IH]; intros k.
  - simpl. rewrite lum_fold_no_user by exact Hpost.
    unfold lum_step; simpl. rewrite Hm. simpl. f_equal. lia.
  - simpl. rewrite IH. unfold lum_step; simpl.
    destruct (Z.eqb_spec (Z.pos (Pos.of_succ_nat (k + length pre))) (-1)) as [E|E];
      [lia|]. simpl. f_equal. lia.
Qed.

Lemma lastUserMessageIndex_last pre m post :
  role m = user -> (forall m', m' ∈ post -> role m' <> user) ->
  lastUserMessageIndex (pre ++ m :: post) = Z.of_nat (length pre).
Proof. intros. unfold lastUserMessageIndex. apply lum_fold_last_user; auto. Qed.

Lemma reload_unfold cfg s options pre m post :
  messages s = pre ++ m :: post -> role m = user ->
  (forall m', m' ∈ post -> role m' <> user) ->
  reload cfg s options =
    append_start cfg (set_messages s (pre ++ [m])) (content m) options.
Proof.
  intros Hs Hm Hpost. unfold reload.
  destruct (messages s) as [|x l] eqn:E; [destruct pre; discriminate|].
  rewrite Hs, lastUserMessageIndex_last by auto.
  destruct (Z.eqb_spec (Z.of_nat (length pre)) (-1)) as [E'|E']; [lia|].
  replace (Z.to_nat (Z.of_nat (length pre) + 1)) with (length pre + 1) by lia.
  rewrite firstn_app_2. simpl.
  replace (Z.to_nat (Z.of_nat (length pre))) with (length pre + 0) by lia.
  rewrite list_lookup_middle by lia. reflexivity.
Qed.

(** C10 (counterexample).  [append] trims what [reload] re-submits: a
    last user message [" hi "] comes back as a fresh user message with
    content ["hi"], not with identical content. *)
Lemma C10_reload_trims_content : ~ reload_duplicates_content.
Proof.
  intros H.
  destruct (H chat_cfg (set_messages (init [] None 5) [mkMessage 0 user " hi " []])
              None [] (mkMessage 0 user " hi " []) []
              (mkChatResponse "c1" "answer" []) eq_refl eq_refl)
    as (s1 & c & Hr & Hm).
  - intros m' Hm'. apply elem_of_nil in Hm'. contradiction.
  - vm_compute in Hr. injection Hr as <- <-. vm_compute in Hm. discriminate Hm.
Qed.

(** C10 (amended).  On a list with no user message (in particular the
    empty list) [reload] returns [null] and leaves the state unchanged.
    On a list whose last user message is [m], [reload] cuts the list just
    after [m] and re-submits [content m] through [append]: if it trims to
    the empty string, [reload] returns [null] with the list so cut;
    otherwise a fresh user message with the trimmed content follows [m],
    and once the response arrives the assistant message follows it. *)
Theorem C10_reload_resubmits_last_user_message cfg s options :
  ((forall m', m' ∈ messages s -> role m' <> user) ->
     reload cfg s options = (s, None)) /\
  (forall pre m post,
     messages s = pre ++ [m] ++ post -> role m = user ->
     (forall m', m' ∈ post -> role m' <> user) ->
     let fresh := mkMessage (next_uuid s) user (trim (content m)) [] in
     (trim (content m) = "" ->
        reload cfg s options = (set_messages s (pre ++ [m]), None)) /\
     (trim (content m) <> "" ->
        exists c, (reload cfg s options).2 = Some c /\
        messages (reload cfg s options).1 = pre ++ [m; fresh] /\
        forall data,
          messages (complete_ok (reload cfg s options).1 c data).1 =
            pre ++ [m; fresh; mkMessage (S (next_uuid s)) assistant
                                (response data) (cr_sources data)] /\
          (complete_ok (reload cfg s options).1 c data).2 =
            RId (conversation_id data))).
Proof.
  split.
  - intros Hno. unfold reload.
    destruct (messages s) as [|x l] eqn:E; [reflexivity|].
    unfold lastUserMessageIndex.
    rewrite lum_fold_no_user by exact Hno. reflexivity.
  - intros pre m post Hs Hm Hpost fresh.
    rewrite (reload_unfold cfg s options pre m post Hs Hm Hpost).
    unfold append_start. split.
    + intros Ht. rewrite Ht. reflexivity.
    + intros Ht. destruct (String.eqb_spec (trim (content m)) "") as [E|E];
        [contradiction|].
      exists (next_ctrl s). simpl. split; [reflexivity|].
      split; [rewrite <- app_assoc; reflexivity|].
      intros data. split; [|reflexivity].
      simpl. rewrite <- !app_assoc. reflexivity.
Qed.

Lemma C10_reload_resubmits_last_user_message_witness :
  reload chat_cfg (set_messages (init [] None 7)
     [mkMessage 0 user "hi" []; mkMessage 1 assistant "x" []]) None =
  (append_start chat_cfg (set_messages (init [] None 7)
     [mkMessage 0 user "hi" []]) "hi" None).
Proof.
  destruct (C10_reload_resubmits_last_user_message chat_cfg
     (set_messages (init [] None 7)
        [mkMessage 0 user "hi" []; mkMessage 1 assistant "x" []]) None)
    as [_ H].
  destruct (H [] (mkMessage 0 user "hi" []) [mkMessage 1 assistant "x" []]
              eq_refl eq_refl) as [_ H2].
  - intros m' Hm'. apply list_elem_of_singleton in Hm'. subst m'. discriminate.
  - destruct (H2 ltac:(discriminate)) as (c & Hc & Hm & _).
    vm_compute. reflexivity.
Defined.

End UseChatFacts.

Module ChatRouteFacts.
Import ChatTypes ChatRoute.

Lemma parse_strings_map (l : list string) : parse_strings (map JStr l) = Some l.
Proof. induction l as [|x l IH]; simpl; [reflexivity|]. rewrite IH. reflexivity. Qed.

Lemma parse_message_nonempty (m : string) :
  m <> "" -> parse_message (Some (JStr m)) = Some m.
Proof. destruct m; [congruence|reflexivity]. Qed.

Lemma chatRequest_roundtrip (r : ChatRequest) :
  message r <> "" -> chatRequestSchema_parse (chatRequest_to_json r) = Some r.
Proof.
  destruct r as [m cid t c]; simpl. intros Hm.
  destruct m as [|a m]; [congruence|].
  destruct cid, t, c; simpl; rewrite ?parse_strings_map; reflexivity.
Qed.

Lemma read_message_request (r : ChatRequest) :
  read_message (chatRequest_to_json r) = Some (Some (JStr (message r))).
Proof. destruct r as [m [] [] []]; reflexivity. Qed.

(** C1 (counterexample).  The route reads the user's text from the key
    [message]: a body [{ text: "hi" }] is answered with status 400 even
    when the back end would answer. *)
Lemma C1_text_field_rejected : ~ query_accepts_text_field.
Proof.
  intros H.
  specialize (H (fun _ => (200%Z, Some JNull)) "hi" JNull ltac:(discriminate)
                (fun _ => eq_refl)).
  vm_compute in H. discriminate H.
Qed.

(** C1 (amended).  The route validates a body
    [{ message, conversation_id?, technologies?, categories? }] with a
    non-empty [message], forwards exactly these fields to the back end and,
    when the back end answers with a 2xx status, returns the back end's
    body unchanged with status 200; a body carrying its text under [text]
    is rejected with status 400.  The response is typed [ChatResponse]
    with the keys [conversation_id], [response], [sources], and each
    source with the seven keys of [Source], [full_content] included. *)
Theorem C1_query_contract (backend : Backend) (r : ChatRequest) (st : Z) (d : json) :
  message r <> "" -> is_ok st = true ->
  backend (chatRequest_to_json r) = (st, Some d) ->
  chatRequestSchema_parse (chatRequest_to_json r) = Some r /\
  POST backend (Some (chatRequest_to_json r)) = mkResp 200 d /\
  (forall t, POST backend (Some (JObj [("text", JStr t)]))= invalid_request) /\
  (forall x : ChatResponse,
     keys (chatResponse_to_json x) = ["conversation_id"; "response"; "sources"]) /\
  (forall x : Source,
     keys (source_to_json x) =
       ["technology"; "file_path"; "section_title"; "category"; "score";
        "content_preview"; "full_content"]).
Proof.
  intros Hm Hok Hb.
  split; [apply chatRequest_roundtrip; exact Hm|].
  split.
  - unfold POST. rewrite read_message_request.
    replace (truthy (Some (JStr (message r)))) with true
      by (simpl; destruct (String.eqb_spec (message r) ""); [congruence|reflexivity]).
    rewrite chatRequest_roundtrip by exact Hm. simpl. rewrite Hb, Hok. reflexivity.
  - repeat split; reflexivity.
Qed.

Lemma C1_query_contract_witness :
  POST (fun _ => (200%Z, Some (chatResponse_to_json (mkChatResponse "c1" "ok" []))))
    (Some (chatRequest_to_json (mkChatRequest "hello" None (Some ["qdrant"]) None))) =
  mkResp 200 (chatResponse_to_json (mkChatResponse "c1" "ok" [])).
Proof.
  destruct (C1_query_contract
              (fun _ => (200%Z, Some (chatResponse_to_json (mkChatResponse "c1" "ok" []))))
              (mkChatRequest "hello" None (Some ["qdrant"]) None) 200
              (chatResponse_to_json (mkChatResponse "c1" "ok" []))
              ltac:(discriminate) eq_refl eq_refl) as (_ & H & _).
  exact H.
Defined.

End ChatRouteFacts.

Module IndexerFacts.
Import Indexer.

(** *** Generic facts on lists of pairs *)

Lemma in_map_fst {A B} (l : list (A * B)) x y : (x, y) ∈ l -> x ∈ map fst l.
Proof.
  rewrite !list_elem_of_In. intros H. apply (in_map fst) in H. exact H.
Qed.

Lemma in_map_fst_inv {A B} (l : list (A * B)) x : x ∈ map fst l -> exists y, (x, y) ∈ l.
Proof.
  rewrite list_elem_of_In. intros H. apply in_map_iff in H as ([a b] & Ha & H).
  simpl in Ha. subst a. exists b. apply list_elem_of_In. exact H.
Qed.

Lemma NoDup_fst_unique {A B} (l : list (A * B)) x y y' :
  NoDup (map fst l) -> (x, y) ∈ l -> (x, y') ∈ l -> y = y'.
Proof.
  induction l as [|[a b] l IH]; intros Hnd H1 H2.
  - apply elem_of_nil in H1. contradiction.
  - simpl in Hnd. apply NoDup_cons in Hnd as [Hnot Hnd].
    apply elem_of_cons in H1 as [H1|H1]; apply elem_of_cons in H2 as [H2|H2].
    + congruence.
    + injection H1 as -> ->. exfalso. apply Hnot. exact (in_map_fst _ _ _ H2).
    + injection H2 as -> ->. exfalso. apply Hnot. exact (in_map_fst _ _ _ H1).
    + exact (IH Hnd H1 H2).
Qed.

Lemma NoDup_fst_filter {A B} (f : A * B -> bool) (l : list (A * B)) :
  NoDup (map fst l) -> NoDup (map fst (List.filter f l)).
Proof.
  induction l as [|x l IH]; simpl; intros Hnd; [constructor|].
  apply NoDup_cons in Hnd as [Hnot Hnd].
  destruct (f x); simpl; [|auto].
  constructor; [|auto].
  intros Hin. apply Hnot.
  apply list_elem_of_In in Hin. apply list_elem_of_In.
  apply in_map_iff in Hin as (y & Hy & Hin). apply filter_In in Hin as [Hin _].
  rewrite <- Hy. apply in_map. exact Hin.
Qed.

Lemma map_fst_filter_sub {A B} (f : A * B -> bool) (l : list (A * B)) x :
  x ∈ map fst (List.filter f l) -> x ∈ map fst l.
Proof.
  rewrite !list_elem_of_In. intros Hin.
  apply in_map_iff in Hin as (y & Hy & Hin). apply filter_In in Hin as [Hin _].
  rewrite <- Hy. apply in_map. exact Hin.
Qed.

(** *** Chunk ids *)

Lemma chunks_fst_from (d : DocId) k (secs : list string) :
  map fst (zip (map (fun i => (d, i)) (seq k (length secs))) secs) =
  map (fun i => (d, i)) (seq k (length secs)).
Proof.
  revert k. induction secs as [|t secs IH]; intros k; [reflexivity|].
  simpl. f_equal. apply IH.
Qed.

Lemma chunks_fst (d : DocId) secs : map fst (chunks d secs) = chunk_ids d (length secs).
Proof. apply chunks_fst_from. Qed.

Lemma chunk_ids_owner (d : DocId) n c : c ∈ chunk_ids d n -> c.1 = d.
Proof.
  unfold chunk_ids. rewrite list_elem_of_In. intros H.
  apply in_map_iff in H as (i & <- & _). reflexivity.
Qed.

Lemma chunk_ids_NoDup (d : DocId) n : NoDup (chunk_ids d n).
Proof.
  unfold chunk_ids. generalize 0. induction n as [|n IH]; intros k; simpl.
  - constructor.
  - constructor; [|apply IH].
    rewrite list_elem_of_In. intros H. apply in_map_iff in H as (i & Hi & Hin).
    injection Hi as ->. apply in_seq in Hin. lia.
Qed.

Lemma chunks_NoDup (d : DocId) secs : NoDup (map fst (chunks d secs)).
Proof. rewrite chunks_fst. apply chunk_ids_NoDup. Qed.

Lemma chunks_owner (d : DocId) secs c : c ∈ map fst (chunks d secs) -> c.1 = d.
Proof. rewrite chunks_fst. apply chunk_ids_owner. Qed.

Lemma new_ids_elem (d : DocId) secs c : c ∈ new_ids d secs <-> c ∈ map fst (chunks d secs).
Proof. unfold new_ids. apply elem_of_list_to_set. Qed.

Lemma new_ids_owner (d : DocId) secs c : c ∈ new_ids d secs -> c.1 = d.
Proof. rewrite new_ids_elem. apply chunks_owner. Qed.

(** *** The index updates *)

Lemma drop_ids_lookup (idx : gmap ChunkId EmbeddingRecord) ids c :
  drop_ids idx ids !! c = if decide (c ∈ ids) then None else idx !! c.
Proof.
  unfold drop_ids. rewrite map_lookup_filter.
  destruct (idx !! c); simpl; repeat case_guard; case_decide; naive_solver.
Qed.

Section WithCaps.
Variable hash : string -> Z.
Variable sections : string -> option (list string).
Variable embed : string -> option (list Z).

Lemma to_embed_elem idx cs c t :
  (c, t) ∈ to_embed hash idx cs <-> (c, t) ∈ cs /\ matching hash idx (c, t) = false.
Proof using hash.
  unfold to_embed. rewrite !list_elem_of_In, filter_In.
  destruct (matching hash idx (c, t)); simpl; split.
  - intros [_ H]. discriminate.
  - intros [_ H]. discriminate.
  - intros [H _]. auto.
  - intros [H _]. auto.
Qed.

Lemma embed_fold_frame te idx c :
  c ∉ map fst te -> fold_left (embed_into hash embed) te idx !! c = idx !! c.
Proof.
  revert idx. induction te as [|[c' t'] te IH]; intros idx Hc; simpl; [reflexivity|].
  simpl in Hc. apply not_elem_of_cons in Hc as [Hne Hc].
  rewrite IH by exact Hc. unfold embed_into; simpl.
  destruct (embed t'); [apply lookup_insert_ne|apply lookup_delete_ne]; congruence.
Qed.

Lemma embed_fold_hit te idx c t :
  NoDup (map fst te) -> (c, t) ∈ te ->
  fold_left (embed_into hash embed) te idx !! c =
    match embed t with Some v => Some (mkRecord v (hash t)) | None => None end.
Proof.
  revert idx. induction te as [|[c' t'] te IH]; intros idx Hnd Hin; simpl.
  - apply elem_of_nil in Hin. contradiction.
  - simpl in Hnd. apply NoDup_cons in Hnd as [Hnot Hnd].
    apply elem_of_cons in Hin as [Heq|Hin].
    + injection Heq as <- <-. rewrite embed_fold_frame by exact Hnot.
      unfold embed_into; simpl.
      destruct (embed t); [apply lookup_insert_eq|apply lookup_delete_eq].
    + apply IH; assumption.
Qed.

Lemma embed_fold_support te idx c r :
  fold_left (embed_into hash embed) te idx !! c = Some r ->
  c ∈ map fst te \/ idx !! c = Some r.
Proof.
  destruct (decide (c ∈ map fst te)) as [Hc|Hc]; [auto|].
  rewrite embed_fold_frame by exact Hc. auto.
Qed.

Lemma old_ids_owner st d c : ids_owned st -> c ∈ old_ids st d -> c.1 = d.
Proof using.
  unfold old_ids. destruct (manifest st !! d) as [[h ids]|] eqn:E.
  - intros Ho Hc. exact (Ho d h ids c E Hc).
  - intros _ Hc. apply elem_of_empty in Hc. contradiction.
Qed.

Lemma kept_index_lookup st d secs c :
  kept_index st d secs !! c =
    if decide (c ∈ old_ids st d ∖ new_ids d secs) then None else index st !! c.
Proof using. apply drop_ids_lookup. Qed.

Lemma embed_requests_elem st d secs c t :
  (c, t) ∈ embed_requests hash st d secs <->
  (c, t) ∈ chunks d secs /\ matching hash (kept_index st d secs) (c, t) = false.
Proof using hash. apply to_embed_elem. Qed.

Lemma embed_requests_owner st d secs c :
  c ∈ map fst (embed_requests hash st d secs) -> c.1 = d.
Proof using hash. intros H. apply map_fst_filter_sub in H. exact (chunks_owner _ _ _ H). Qed.

Lemma embed_requests_NoDup st d secs : NoDup (map fst (embed_requests hash st d secs)).
Proof using hash. apply NoDup_fst_filter, chunks_NoDup. Qed.

Lemma apply_doc_manifest st d raw d' :
  manifest (apply_doc hash sections embed st d raw) !! d' =
    if decide (d' = d) then
      match sections raw with
      | Some secs => Some (hash raw, new_ids d secs)
      | None => manifest st !! d
      end
    else manifest st !! d'.
Proof.
  unfold apply_doc. destruct (sections raw) as [secs|]; simpl.
  - case_decide as Hd; [subst; apply lookup_insert_eq|apply lookup_insert_ne; congruence].
  - case_decide; [subst|]; reflexivity.
Qed.

Lemma apply_doc_index_other st d raw c :
  ids_owned st -> c.1 <> d ->
  index (apply_doc hash sections embed st d raw) !! c = index st !! c.
Proof.
  intros Ho Hc. unfold apply_doc. destruct (sections raw) as [secs|]; [|reflexivity].
  simpl. rewrite embed_fold_frame.
  - rewrite kept_index_lookup. case_decide as Hin; [|reflexivity].
    apply elem_of_difference in Hin as [Hin _].
    exfalso. exact (Hc (old_ids_owner _ _ _ Ho Hin)).
  - intros Hin. exact (Hc (embed_requests_owner _ _ _ _ Hin)).
Qed.

Lemma apply_doc_owned st d raw :
  ids_owned st -> ids_owned (apply_doc hash sections embed st d raw).
Proof.
  intros Ho d' h ids c Hd Hc. rewrite apply_doc_manifest in Hd.
  case_decide as He; [subst d'|exact (Ho _ _ _ _ Hd Hc)].
  destruct (sections raw) as [secs|]; [|exact (Ho _ _ _ _ Hd Hc)].
  injection Hd as <- <-. exact (new_ids_owner _ _ _ Hc).
Qed.

Lemma apply_doc_records st d raw :
  ids_owned st -> records_in_manifest st ->
  records_in_manifest (apply_doc hash sections embed st d raw).
Proof.
  intros Ho Hr c r H. unfold apply_doc in *.
  destruct (sections raw) as [secs|] eqn:Es; [|exact (Hr c r H)].
  cbn [manifest index] in H |- *.
  apply embed_fold_support in H as [Hc|Hc].
  - apply map_fst_filter_sub in Hc.
    pose proof (chunks_owner _ _ _ Hc) as Ho'.
    exists (hash raw), (new_ids d secs). rewrite Ho', lookup_insert_eq.
    split; [reflexivity|]. apply new_ids_elem. exact Hc.
  - rewrite kept_index_lookup in Hc. case_decide as Hin; [discriminate|].
    destruct (Hr c r Hc) as (h & ids & Hm & Hids).
    destruct (decide (c.1 = d)) as [Hd|Hd].
    + exists (hash raw), (new_ids d secs). rewrite Hd, lookup_insert_eq.
      split; [reflexivity|].
      assert (c ∈ old_ids st d) as Hold
        by (unfold old_ids; rewrite <- Hd, Hm; exact Hids).
      destruct (decide (c ∈ new_ids d secs)) as [Hn|Hn]; [exact Hn|].
      exfalso. apply Hin. apply elem_of_difference. auto.
    + exists h, ids. rewrite lookup_insert_ne by congruence. auto.
Qed.

Lemma apply_doc_has_records st d raw :
  (forall t, is_Some (embed t)) -> ids_owned st -> manifest_has_records st ->
  manifest_has_records (apply_doc hash sections embed st d raw).
Proof.
  intros Hemb Ho Hm d' h ids c Hd Hc. unfold apply_doc in *.
  destruct (sections raw) as [secs|] eqn:Es; [|exact (Hm _ _ _ _ Hd Hc)].
  cbn [manifest index] in Hd |- *.
  destruct (decide (d' = d)) as [->|Hne].
  - rewrite lookup_insert_eq in Hd. injection Hd as <- <-.
    apply new_ids_elem, in_map_fst_inv in Hc as [t Hct].
    destruct (matching hash (kept_index st d secs) (c, t)) eqn:Em.
    + unfold matching in Em; simpl in Em.
      destruct (kept_index st d secs !! c) as [r|] eqn:Ek; [|discriminate].
      rewrite embed_fold_frame; [rewrite Ek; eauto|].
      intros Hin. apply in_map_fst_inv in Hin as [t' Ht'].
      pose proof Ht' as Ht''. apply embed_requests_elem in Ht'' as [Hc' Hm'].
      rewrite (NoDup_fst_unique _ _ _ _ (chunks_NoDup d secs) Hc' Hct) in Hm'.
      unfold matching in Hm'; simpl in Hm'. rewrite Ek in Hm'. congruence.
    + rewrite (embed_fold_hit _ _ _ t (embed_requests_NoDup st d secs)).
      * destruct (Hemb t) as [v Hv]. rewrite Hv. eauto.
      * apply embed_requests_elem. auto.
  - rewrite lookup_insert_ne in Hd by congruence.
    pose proof (Ho _ _ _ _ Hd Hc) as Hown.
    rewrite embed_fold_frame.
    + rewrite kept_index_lookup. case_decide as Hin.
      * apply elem_of_difference in Hin as [Hin _].
        exfalso. apply Hne. rewrite <- Hown. exact (old_ids_owner _ _ _ Ho Hin).
      * exact (Hm _ _ _ _ Hd Hc).
    + intros Hin. apply Hne. rewrite <- Hown. exact (embed_requests_owner _ _ _ _ Hin).
Qed.

Lemma apply_delete_manifest st d d' :
  manifest (apply_delete st d) !! d' =
    if decide (d' = d) then None else manifest st !! d'.
Proof.
  unfold apply_delete. destruct (manifest st !! d) as [[h ids]|] eqn:E; simpl.
  - case_decide; [subst; apply lookup_delete_eq|apply lookup_delete_ne; congruence].
  - case_decide; [subst|]; auto.
Qed.

Lemma apply_delete_index_other st d c :
  ids_owned st -> c.1 <> d -> index (apply_delete st d) !! c = index st !! c.
Proof.
  intros Ho Hc. unfold apply_delete.
  destruct (manifest st !! d) as [[h ids]|] eqn:E; [|reflexivity].
  simpl. rewrite drop_ids_lookup. case_decide as Hin; [|reflexivity].
  exfalso. exact (Hc (Ho _ _ _ _ E Hin)).
Qed.

Lemma apply_delete_owned st d : ids_owned st -> ids_owned (apply_delete st d).
Proof.
  intros Ho d' h ids c Hd Hc. rewrite apply_delete_manifest in Hd.
  case_decide; [discriminate|exact (Ho _ _ _ _ Hd Hc)].
Qed.

Lemma apply_delete_records st d :
  records_in_manifest st -> records_in_manifest (apply_delete st d).
Proof.
  intros Hr c r H. unfold apply_delete in *.
  destruct (manifest st !! d) as [[h0 ids0]|] eqn:E; [|exact (Hr c r H)].
  simpl in *. rewrite drop_ids_lookup in H. case_decide as Hin; [discriminate|].
  destruct (Hr c r H) as (h & ids & Hm & Hids).
  exists h, ids. split; [|exact Hids].
  destruct (decide (c.1 = d)) as [Hd|Hd].
  - exfalso. rewrite Hd, E in Hm. injection Hm as _ <-. contradiction.
  - rewrite lookup_delete_ne by congruence. exact Hm.
Qed.

Lemma apply_delete_has_records st d :
  ids_owned st -> manifest_has_records st -> manifest_has_records (apply_delete st d).
Proof.
  intros Ho Hm d' h ids c Hd Hc. rewrite apply_delete_manifest in Hd.
  case_decide as Hne; [discriminate|].
  pose proof (Ho _ _ _ _ Hd Hc) as Hown.
  unfold apply_delete. destruct (manifest st !! d) as [[h0 ids0]|] eqn:E.
  - simpl. rewrite drop_ids_lookup. case_decide as Hin.
    + exfalso. apply Hne. rewrite <- Hown. exact (Ho _ _ _ _ E Hin).
    + exact (Hm _ _ _ _ Hd Hc).
  - exact (Hm _ _ _ _ Hd Hc).
Qed.

Lemma deletes_manifest ds st d :
  manifest (fold_left apply_delete ds st) !! d =
    if decide (d ∈ ds) then None else manifest st !! d.
Proof.
  revert st. induction ds as [|d0 ds IH]; intros st; simpl.
  - reflexivity.
  - rewrite IH, apply_delete_manifest.
    repeat case_decide; auto; set_solver.
Qed.

Lemma deletes_inv (P : Store -> Prop) ds st :
  (forall st d, P st -> P (apply_delete st d)) -> P st -> P (fold_left apply_delete ds st).
Proof. intros HP. revert st. induction ds; simpl; auto. Qed.

Lemma docs_inv (P : Store -> Prop) (l : list (DocId * string)) st :
  (forall st d raw, P st -> P (apply_doc hash sections embed st d raw)) ->
  P st -> P (fold_left (fun st (e : DocId * string) => apply_doc hash sections embed st e.1 e.2) l st).
Proof. intros HP. revert st. induction l; simpl; auto. Qed.

Lemma docs_manifest_frame (l : list (DocId * string)) st d :
  d ∉ map fst l ->
  manifest (fold_left (fun st (e : DocId * string) => apply_doc hash sections embed st e.1 e.2) l st) !! d
    = manifest st !! d.
Proof.
  revert st. induction l as [|[d0 raw0] l IH]; intros st Hd; simpl; [reflexivity|].
  simpl in Hd. apply not_elem_of_cons in Hd as [Hne Hd].
  rewrite IH by exact Hd. rewrite apply_doc_manifest. case_decide; [contradiction|reflexivity].
Qed.

Lemma docs_manifest_hit (l : list (DocId * string)) st d raw :
  (forall raw', (d, raw') ∈ l -> raw' = raw) -> (d, raw) ∈ l ->
  manifest (fold_left (fun st (e : DocId * string) => apply_doc hash sections embed st e.1 e.2) l st) !! d
    = match sections raw with
      | Some secs => Some (hash raw, new_ids d secs)
      | None => manifest st !! d
      end.
Proof.
  revert st. induction l as [|[d0 raw0] l IH]; intros st Huniq Hin; simpl.
  - apply elem_of_nil in Hin. contradiction.
  - destruct (decide ((d, raw) ∈ l)) as [Hl|Hl].
    + rewrite IH; [|intros raw' H; apply Huniq; apply elem_of_cons; auto|exact Hl].
      destruct (sections raw) eqn:Es; [reflexivity|].
      rewrite apply_doc_manifest. case_decide as He; [|reflexivity].
      subst d0. assert (raw0 = raw) as -> by (apply Huniq; apply elem_of_cons; auto).
      rewrite Es. reflexivity.
    + apply elem_of_cons in Hin as [Heq|Hin]; [|contradiction].
      injection Heq as <- <-.
      rewrite docs_manifest_frame.
      * rewrite apply_doc_manifest. case_decide; [|congruence]. reflexivity.
      * intros Hd. apply in_map_fst_inv in Hd as [raw' Hraw'].
        assert (raw' = raw) as -> by (apply Huniq; apply elem_of_cons; auto).
        contradiction.
Qed.

Lemma docs_index_frame (l : list (DocId * string)) st c :
  ids_owned st -> c.1 ∉ map fst l ->
  index (fold_left (fun st (e : DocId * string) => apply_doc hash sections embed st e.1 e.2) l st) !! c
    = index st !! c.
Proof.
  revert st. induction l as [|[d0 raw0] l IH]; intros st Ho Hd; simpl; [reflexivity|].
  simpl in Hd. apply not_elem_of_cons in Hd as [Hne Hd].
  rewrite IH by (auto using apply_doc_owned).
  apply apply_doc_index_other; auto.
Qed.

Lemma deletes_index_frame ds st c :
  ids_owned st -> c.1 ∉ ds -> index (fold_left apply_delete ds st) !! c = index st !! c.
Proof.
  revert st. induction ds as [|d0 ds IH]; intros st Ho Hd; simpl; [reflexivity|].
  apply not_elem_of_cons in Hd as [Hne Hd].
  rewrite IH by (auto using apply_delete_owned).
  apply apply_delete_index_other; auto.
Qed.

Lemma docs_parse_failed (l : list (DocId * string)) st :
  (forall e, e ∈ l -> sections e.2 = None) ->
  fold_left (fun st (e : DocId * string) => apply_doc hash sections embed st e.1 e.2) l st = st.
Proof.
  induction l as [|[d raw] l IH]; intros H; simpl; [reflexivity|].
  unfold apply_doc at 2. pose proof (H (d, raw)) as Hd. simpl in Hd.
  rewrite Hd by (apply elem_of_cons; auto).
  apply IH. intros e He. apply H. apply elem_of_cons; auto.
Qed.

Lemma apply_keeps (P : Store -> Prop) p st :
  (forall st d, P st -> P (apply_delete st d)) ->
  (forall st d raw, P st -> P (apply_doc hash sections embed st d raw)) ->
  P st -> P (apply hash sections embed p st).
Proof.
  intros Hd Ha H. unfold apply. apply docs_inv; [exact Ha|]. apply deletes_inv; auto.
Qed.

Lemma reachable_keeps (P : Store -> Prop) st :
  P empty_store ->
  (forall p st, P st -> P (apply hash sections embed p st)) ->
  reachable hash sections embed st -> P st.
Proof.
  intros H0 HP Hr. unfold reachable in Hr.
  remember empty_store as st0 eqn:E. clear E.
  induction Hr as [st|st st' st'' [p ->] _ IH]; auto.
Qed.

Lemma reachable_owned_records st :
  reachable hash sections embed st -> ids_owned st /\ records_in_manifest st.
Proof.
  apply (reachable_keeps (fun st => ids_owned st /\ records_in_manifest st)).
  - split; [intros ????|intros ??]; unfold empty_store; cbn [manifest index];
      rewrite lookup_empty; discriminate.
  - intros p st' [Ho Hr]. apply (apply_keeps (fun st => ids_owned st /\ records_in_manifest st)).
    + intros ?? [??]. split; [apply apply_delete_owned|apply apply_delete_records]; auto.
    + intros ??? [??]. split; [apply apply_doc_owned|apply apply_doc_records]; auto.
    + auto.
Qed.

Lemma reachable_has_records st :
  (forall t, is_Some (embed t)) ->
  reachable hash sections embed st -> ids_owned st /\ manifest_has_records st.
Proof.
  intros Hemb. apply (reachable_keeps (fun st => ids_owned st /\ manifest_has_records st)).
  - split; intros ????; unfold empty_store; cbn [manifest index];
      rewrite lookup_empty; discriminate.
  - intros p st' [Ho Hm]. apply (apply_keeps (fun st => ids_owned st /\ manifest_has_records st)).
    + intros ?? [??]. split; [apply apply_delete_owned|apply apply_delete_has_records]; auto.
    + intros ??? [??]. split; [apply apply_doc_owned|apply apply_doc_has_records]; auto.
    + auto.
Qed.

End WithCaps.

Lemma kept_index_new st d secs c :
  c ∈ new_ids d secs -> kept_index st d secs !! c = index st !! c.
Proof.
  intros Hc. rewrite kept_index_lookup. case_decide as Hin; [|reflexivity].
  apply elem_of_difference in Hin as [_ Hin]. contradiction.
Qed.

Lemma matching_kept (hash : string -> Z) st d secs c t r :
  (c, t) ∈ chunks d secs -> index st !! c = Some r -> rec_hash r = hash t ->
  matching hash (kept_index st d secs) (c, t) = true.
Proof.
  intros Hct Hr Hh. unfold matching; simpl.
  rewrite kept_index_new by (apply new_ids_elem; exact (in_map_fst _ _ _ Hct)).
  rewrite Hr, Hh. apply Z.eqb_refl.
Qed.

Lemma filter_scan_elem {V} (f : DocId * V -> bool) (m : gmap DocId V) d v :
  (d, v) ∈ List.filter f (map_to_list m) <-> m !! d = Some v /\ f (d, v) = true.
Proof.
  rewrite list_elem_of_In, filter_In, <- list_elem_of_In, elem_of_map_to_list.
  reflexivity.
Qed.

Lemma track_added hash m scan d raw :
  (d, raw) ∈ added (track hash m scan) <-> scan !! d = Some raw /\ m !! d = None.
Proof.
  simpl. rewrite filter_scan_elem. simpl.
  destruct (m !! d); intuition discriminate.
Qed.

Lemma track_modified hash m scan d raw :
  (d, raw) ∈ modified (track hash m scan) <->
  scan !! d = Some raw /\ exists h ids, m !! d = Some (h, ids) /\ h <> hash raw.
Proof.
  simpl. rewrite filter_scan_elem. simpl.
  destruct (m !! d) as [[h ids]|]; split.
  - intros [Hs Hh]. split; [exact Hs|]. exists h, ids. split; [reflexivity|].
    apply negb_true_iff, Z.eqb_neq in Hh. exact Hh.
  - intros [Hs (h' & ids' & Hm & Hh)]. injection Hm as <- <-.
    split; [exact Hs|]. apply negb_true_iff, Z.eqb_neq. exact Hh.
  - intros [_ H]. discriminate.
  - intros [_ (h' & ids' & Hm & _)]. discriminate.
Qed.

Lemma track_unchanged_or hash m scan d raw :
  scan !! d = Some raw ->
  (d, raw) ∈ added (track hash m scan) \/ (d, raw) ∈ modified (track hash m scan) \/
  exists ids, m !! d = Some (hash raw, ids).
Proof.
  intros Hs. rewrite track_added, track_modified.
  destruct (m !! d) as [[h ids]|] eqn:E; [|auto].
  destruct (Z.eq_dec h (hash raw)) as [->|Hne]; [eauto|].
  right; left. split; [exact Hs|]. eauto.
Qed.

Lemma track_deleted hash m scan d :
  d ∈ deleted (track hash m scan) <-> is_Some (m !! d) /\ scan !! d = None.
Proof.
  simpl. split.
  - intros Hd. apply in_map_fst_inv in Hd as [x Hx].
    apply filter_scan_elem in Hx as [Hm Hs]. simpl in Hs.
    split; [eauto|]. destruct (scan !! d); [discriminate|reflexivity].
  - intros [[x Hm] Hs]. apply (in_map_fst _ _ x). apply filter_scan_elem.
    split; [exact Hm|]. simpl. rewrite Hs. reflexivity.
Qed.

Lemma track_docs_in_scan hash m scan d raw :
  (d, raw) ∈ added (track hash m scan) ++ modified (track hash m scan) ->
  scan !! d = Some raw.
Proof.
  rewrite elem_of_app, track_added, track_modified. intros [[H _]|[H _]]; exact H.
Qed.

Section Passes.
Variable hash : string -> Z.
Variable sections : string -> option (list string).
Variable embed : string -> option (list Z).

Lemma pass_manifest_gone scan st d :
  scan !! d = None -> manifest (index_pass hash sections embed scan st) !! d = None.
Proof.
  intros Hs. unfold index_pass, apply.
  rewrite docs_manifest_frame.
  - rewrite deletes_manifest. case_decide as Hd; [reflexivity|].
    destruct (manifest st !! d) eqn:E; [|reflexivity].
    exfalso. apply Hd. apply track_deleted. rewrite E. eauto.
  - intros Hd. apply in_map_fst_inv in Hd as [raw Hraw].
    apply track_docs_in_scan in Hraw. congruence.
Qed.

Lemma pass_manifest_parsed scan st d raw secs :
  scan !! d = Some raw -> sections raw = Some secs ->
  exists ids, manifest (index_pass hash sections embed scan st) !! d = Some (hash raw, ids).
Proof.
  intros Hs Es. unfold index_pass, apply.
  set (p := track hash (manifest st) scan).
  assert (Huniq : forall raw', (d, raw') ∈ added p ++ modified p -> raw' = raw).
  { intros raw' H. apply track_docs_in_scan in H. congruence. }
  destruct (decide ((d, raw) ∈ added p ++ modified p)) as [Hin|Hin].
  - rewrite (docs_manifest_hit _ _ _ _ _ _ _ Huniq Hin), Es. eauto.
  - rewrite docs_manifest_frame.
    + rewrite deletes_manifest. case_decide as Hd.
      * apply track_deleted in Hd as [_ Hd]. congruence.
      * destruct (track_unchanged_or hash (manifest st) scan d raw Hs)
          as [Ha|[Hm|Hu]]; [| |exact Hu]; exfalso; apply Hin; apply elem_of_app; auto.
    + intros Hd. apply in_map_fst_inv in Hd as [raw' Hraw'].
      rewrite (Huniq raw' Hraw') in Hraw'. contradiction.
Qed.

End Passes.

(** C5 (counterexample): consistency is not an invariant of [apply] when
    the embedding capability fails: an added document whose only chunk
    cannot be embedded is recorded in the manifest with that chunk id,
    which then has no EmbeddingRecord. *)
Lemma C5_embedding_failure_breaks_consistency : ~ always_consistent.
Proof.
  intros H.
  set (st := index_pass demo_hash demo_sections failing_embed scan_intro empty_store).
  assert (Hr : reachable demo_hash demo_sections failing_embed st)
    by (apply rtc_once; eexists; reflexivity).
  destruct (H _ _ _ st Hr) as [Hm _].
  destruct (Hm doc_a 5%Z {[(doc_a, 0%nat)]} (doc_a, 0%nat)) as [r Hrec].
  - vm_compute. reflexivity.
  - apply elem_of_singleton. reflexivity.
  - vm_compute in Hrec. discriminate.
Qed.

(** C5 (amended): in every store reachable by [apply] calls every
    EmbeddingRecord's chunk id appears in its document's manifest entry
    (and a manifest entry lists only chunk ids of its own document);
    when the embedding capability never fails, every chunk id of the
    manifest also has its record, so the store is consistent; and the
    apply of one document either leaves the store as it was (a
    [ParseError]) or writes the new manifest entry with every record of
    the document listed in it. *)
Theorem C5_reachable_store_consistency hash sections embed st :
  reachable hash sections embed st ->
  records_in_manifest st /\ ids_owned st /\
  ((forall t, is_Some (embed t)) -> consistent st) /\
  (forall d raw,
     let st' := apply_doc hash sections embed st d raw in
     st' = st \/
     exists secs, sections raw = Some secs /\
       manifest st' !! d = Some (hash raw, new_ids d secs) /\
       (forall c r, index st' !! c = Some r -> c.1 = d -> c ∈ new_ids d secs)).
Proof.
  intros Hr. destruct (reachable_owned_records _ _ _ _ Hr) as [Ho Hrec].
  split; [exact Hrec|]. split; [exact Ho|]. split.
  - intros Hemb. split; [|exact Hrec].
    exact (proj2 (reachable_has_records _ _ _ _ Hemb Hr)).
  - intros d raw st'.
    destruct (sections raw) as [secs|] eqn:Es.
    + right. exists secs. split; [reflexivity|].
      assert (Hman : manifest st' !! d = Some (hash raw, new_ids d secs)).
      { unfold st'. rewrite apply_doc_manifest. case_decide; [|congruence].
        rewrite Es. reflexivity. }
      split; [exact Hman|].
      intros c r Hc Hcd.
      destruct (apply_doc_records _ _ _ _ _ _ Ho Hrec c r Hc) as (h & ids & Hm & Hids).
      fold st' in Hm. rewrite Hcd, Hman in Hm. injection Hm as _ <-. exact Hids.
    + left. unfold st', apply_doc. rewrite Es. reflexivity.
Qed.

Lemma C5_reachable_store_consistency_witness :
  let st := index_pass demo_hash demo_sections demo_embed scan_two empty_store in
  reachable demo_hash demo_sections demo_embed st /\
  (records_in_manifest st /\ ids_owned st /\
   ((forall t, is_Some (demo_embed t)) -> consistent st) /\
   (forall d raw,
      let st' := apply_doc demo_hash demo_sections demo_embed st d raw in
      st' = st \/
      exists secs, demo_sections raw = Some secs /\
        manifest st' !! d = Some (demo_hash raw, new_ids d secs) /\
        (forall c r, index st' !! c = Some r -> c.1 = d -> c ∈ new_ids d secs))).
Proof.
  intros st.
  assert (Hr : reachable demo_hash demo_sections demo_embed st)
    by (apply rtc_once; eexists; reflexivity).
  split; [exact Hr|].
  apply (C5_reachable_store_consistency demo_hash demo_sections demo_embed st Hr).
Defined.

(** C6: the apply of one re-parsed document sends to the embedding
    capability only chunks of the document that are not present in the
    index with a matching content hash; the record of every chunk whose
    content hash matches is left as it was (same vector, same hash); the
    records of other documents are left as they were; and the apply of a
    whole partition leaves the records of every document it does not
    list as they were. *)
Theorem C6_incremental_reindex hash sections embed st d raw secs :
  ids_owned st -> sections raw = Some secs ->
  let st' := apply_doc hash sections embed st d raw in
  (forall c t, (c, t) ∈ embed_requests hash st d secs ->
     (c, t) ∈ chunks d secs /\
     ~ (exists r, index st !! c = Some r /\ rec_hash r = hash t)) /\
  (forall c t r, (c, t) ∈ chunks d secs -> index st !! c = Some r ->
     rec_hash r = hash t -> index st' !! c = Some r) /\
  (forall c, c.1 <> d -> index st' !! c = index st !! c) /\
  (forall p c, c.1 ∉ map fst (added p ++ modified p) -> c.1 ∉ deleted p ->
     index (apply hash sections embed p st) !! c = index st !! c).
Proof.
  intros Ho Es st'. split; [|split; [|split]].
  - intros c t Hreq. apply embed_requests_elem in Hreq as [Hct Hm].
    split; [exact Hct|]. intros (r & Hr & Hh).
    rewrite (matching_kept hash _ _ _ _ _ _ Hct Hr Hh) in Hm. discriminate.
  - intros c t r Hct Hr Hh. unfold st', apply_doc. rewrite Es. cbn [index].
    rewrite embed_fold_frame.
    + rewrite kept_index_new by (apply new_ids_elem; exact (in_map_fst _ _ _ Hct)).
      exact Hr.
    + intros Hin. apply in_map_fst_inv in Hin as [t' Ht'].
      apply embed_requests_elem in Ht' as [Hct' Hm].
      rewrite (NoDup_fst_unique _ _ _ _ (chunks_NoDup d secs) Hct' Hct) in Hm.
      rewrite (matching_kept hash _ _ _ _ _ _ Hct Hr Hh) in Hm. discriminate.
  - intros c Hc. apply apply_doc_index_other; assumption.
  - intros p c Hl Hd. unfold apply.
    rewrite docs_index_frame; [|apply deletes_inv; auto using apply_delete_owned|exact Hl].
    apply deletes_index_frame; assumption.
Qed.

Lemma C6_incremental_reindex_witness :
  let st := index_pass demo_hash demo_sections demo_embed scan_two empty_store in
  ids_owned st /\ demo_sections "ab#xyz" = Some ["ab"; "xyz"] /\
  (let st' := apply_doc demo_hash demo_sections demo_embed st doc_a "ab#xyz" in
  (forall c t, (c, t) ∈ embed_requests demo_hash st doc_a ["ab"; "xyz"] ->
     (c, t) ∈ chunks doc_a ["ab"; "xyz"] /\
     ~ (exists r, index st !! c = Some r /\ rec_hash r = demo_hash t)) /\
  (forall c t r, (c, t) ∈ chunks doc_a ["ab"; "xyz"] -> index st !! c = Some r ->
     rec_hash r = demo_hash t -> index st' !! c = Some r) /\
  (forall c, c.1 <> doc_a -> index st' !! c = index st !! c) /\
  (forall p c, c.1 ∉ map fst (added p ++ modified p) -> c.1 ∉ deleted p ->
     index (apply demo_hash demo_sections demo_embed p st) !! c = index st !! c)).
Proof.
  intros st.
  assert (Ho : ids_owned st).
  { apply (reachable_owned_records demo_hash demo_sections demo_embed).
    apply rtc_once; eexists; reflexivity. }
  split; [exact Ho|]. split; [reflexivity|].
  apply (C6_incremental_reindex demo_hash demo_sections demo_embed st doc_a "ab#xyz"
           ["ab"; "xyz"] Ho).
  reflexivity.
Defined.

(** C7 (counterexample): indexing is not idempotent in the Change
    Tracker's sense when a document fails to parse: the [ParseError] skips
    it without writing a manifest entry, so the second pass over the same
    tree still reports it as added. *)
Lemma C7_parse_error_stays_added : ~ indexing_idempotent.
Proof.
  intros H.
  destruct (H demo_hash demo_sections demo_embed scan_empty_doc empty_store)
    as (_ & Ha & _).
  vm_compute in Ha. discriminate.
Qed.

(** C7 (amended): after one indexing pass, a second pass over the same
    document tree leaves the store (manifest and index) identical; its
    Change Tracker run reports no deleted document, and the only
    documents it reports as added or modified are documents whose parse
    fails. *)
Theorem C7_second_pass_is_identity hash sections embed scan st :
  let st1 := index_pass hash sections embed scan st in
  let p := track hash (manifest st1) scan in
  index_pass hash sections embed scan st1 = st1 /\
  deleted p = [] /\
  (forall e, e ∈ added p ++ modified p -> sections e.2 = None).
Proof.
  intros st1 p.
  assert (Hdel : deleted p = []).
  { destruct (deleted p) as [|d ds] eqn:E; [reflexivity|exfalso].
    assert (Hd : d ∈ deleted p) by (rewrite E; apply elem_of_cons; auto).
    apply track_deleted in Hd as [[x Hx] Hs].
    unfold st1 in Hx. rewrite pass_manifest_gone in Hx by exact Hs. discriminate. }
  assert (Hfail : forall e, e ∈ added p ++ modified p -> sections e.2 = None).
  { intros [d raw] He. simpl.
    pose proof (track_docs_in_scan _ _ _ _ _ He) as Hs.
    destruct (sections raw) as [secs|] eqn:Es; [exfalso|reflexivity].
    destruct (pass_manifest_parsed hash sections embed scan st d raw secs Hs Es)
      as [ids Hm]. fold st1 in Hm.
    apply elem_of_app in He as [Ha|Hmod].
    - apply track_added in Ha as [_ Ha]. congruence.
    - apply track_modified in Hmod as [_ (h & ids' & Hm' & Hh)]. congruence. }
  split; [|split; [exact Hdel|exact Hfail]].
  unfold index_pass. fold p. unfold apply. rewrite Hdel. simpl.
  apply docs_parse_failed. exact Hfail.
Qed.

End IndexerFacts.

Module RetrieverFacts.
Import Retriever.
Local Open Scope Z_scope.

Lemma rank_leb_ge a b : rank_leb a b = true -> b.2 <= a.2.
Proof.
  unfold rank_leb. intros H. apply orb_true_iff in H as [H|H].
  - apply Z.ltb_lt in H. lia.
  - apply andb_true_iff in H as [H _]. apply Z.eqb_eq in H. lia.
Qed.

Lemma rank_leb_lt a b : rank_leb a b = false -> a.2 <= b.2.
Proof.
  unfold rank_leb. intros H. apply orb_false_iff in H as [H _].
  apply Z.ltb_ge in H. lia.
Qed.

Lemma insert_by_perm a l : insert_by a l ≡ₚ a :: l.
Proof.
  induction l as [|b l IH]; simpl; [reflexivity|].
  destruct (rank_leb a b); [reflexivity|].
  rewrite IH. apply perm_swap.
Qed.

Lemma sort_by_perm l : sort_by l ≡ₚ l.
Proof.
  induction l as [|a l IH]; simpl; [reflexivity|].
  rewrite insert_by_perm, IH. reflexivity.
Qed.

Lemma insert_by_sorted a l :
  StronglySorted score_ge l -> StronglySorted score_ge (insert_by a l).
Proof.
  induction l as [|b l IH]; intros Hs; simpl.
  - repeat constructor.
  - inversion Hs as [|? ? Hl Hb]; subst.
    destruct (rank_leb a b) eqn:E.
    + constructor; [exact Hs|]. apply Forall_forall. intros x Hx.
      apply rank_leb_ge in E. apply elem_of_cons in Hx as [->|Hx]; [exact E|].
      rewrite Forall_forall in Hb. specialize (Hb x Hx). unfold score_ge in *. lia.
    + constructor; [exact (IH Hl)|]. apply Forall_forall. intros x Hx.
      rewrite insert_by_perm in Hx.
      apply elem_of_cons in Hx as [->|Hx].
      * apply rank_leb_lt in E. exact E.
      * rewrite Forall_forall in Hb. apply Hb. exact Hx.
Qed.

Lemma sort_by_sorted l : StronglySorted score_ge (sort_by l).
Proof.
  induction l as [|a l IH]; simpl; [constructor|]. apply insert_by_sorted, IH.
Qed.

Lemma StronglySorted_app_rel {A} (R : A -> A -> Prop) l1 l2 x y :
  StronglySorted R (l1 ++ l2) -> x ∈ l1 -> y ∈ l2 -> R x y.
Proof.
  induction l1 as [|a l1 IH]; simpl; intros Hs Hx Hy.
  - apply elem_of_nil in Hx. contradiction.
  - inversion Hs as [|? ? Hl Ha]; subst.
    apply elem_of_cons in Hx as [->|Hx]; [|exact (IH Hl Hx Hy)].
    rewrite Forall_forall in Ha. apply Ha. apply elem_of_app. right. exact Hy.
Qed.

Lemma firstn_elem {A} k (l : list A) x : x ∈ firstn k l -> x ∈ l.
Proof. intros H. rewrite <- (firstn_skipn k l). apply elem_of_app. auto. Qed.

Lemma skipn_elem {A} k (l : list A) x : x ∈ skipn k l -> x ∈ l.
Proof. intros H. rewrite <- (firstn_skipn k l). apply elem_of_app. auto. Qed.

Lemma StronglySorted_firstn {A} (R : A -> A -> Prop) k l :
  StronglySorted R l -> StronglySorted R (firstn k l).
Proof.
  revert l. induction k as [|k IH]; intros [|a l] Hs; simpl; try constructor.
  - inversion Hs; subst. apply IH. assumption.
  - inversion Hs as [|? ? Hl Ha]; subst. rewrite Forall_forall in Ha |- *.
    intros x Hx. apply Ha. exact (firstn_elem _ _ _ Hx).
Qed.

Lemma candidates_eq score (indexes : list (string * list Chunk)) q f :
  flat_map (fun ix => query_index score q f ix.2) indexes =
  map (fun ch => (ch, score q ch)) (List.filter (passes f) (flat_map snd indexes)).
Proof.
  induction indexes as [|ix indexes IH]; simpl; [reflexivity|].
  rewrite IH. unfold query_index. rewrite List.filter_app, map_app. reflexivity.
Qed.

(** C8: every chunk [search] returns satisfies the filters and carries
    its score; the results are ranked by score; there are [min top_k n]
    of them, [n] the number of chunks of the indexes that satisfy the
    filters; and those chunks are the results followed by a rest in
    which no chunk scores higher than any result. *)
Theorem C8_search_prefilter_top_k score indexes q f top_k :
  let res := search score indexes q f top_k in
  let eligible := List.filter (passes f) (flat_map snd indexes) in
  (forall r, r ∈ res -> passes f r.1 = true /\ r.2 = score q r.1) /\
  StronglySorted (fun a b : Chunk * Z => b.2 <= a.2) res /\
  length res = Nat.min top_k (length eligible) /\
  exists rest, map fst res ++ rest ≡ₚ eligible /\
    (forall r x, r ∈ res -> x ∈ rest -> score q x <= r.2).
Proof.
  intros res eligible.
  set (cands := map (fun ch => (ch, score q ch)) eligible).
  assert (Hres : res = firstn top_k (sort_by cands))
    by (unfold res, search, cands, eligible; rewrite candidates_eq; reflexivity).
  assert (Hcand : forall r, r ∈ sort_by cands -> passes f r.1 = true /\ r.2 = score q r.1).
  { intros r Hr. rewrite sort_by_perm in Hr. unfold cands in Hr.
    apply list_elem_of_In, in_map_iff in Hr as (ch & <- & Hch).
    apply filter_In in Hch as [_ Hp]. simpl. auto. }
  split; [|split; [|split]].
  - intros r Hr. apply Hcand. rewrite Hres in Hr.
    exact (firstn_elem _ _ _ Hr).
  - rewrite Hres. apply StronglySorted_firstn, sort_by_sorted.
  - rewrite Hres, length_firstn, (Permutation_length (sort_by_perm cands)).
    unfold cands. rewrite length_map. reflexivity.
  - exists (map fst (skipn top_k (sort_by cands))). split.
    + rewrite Hres, <- map_app, firstn_skipn, sort_by_perm.
      unfold cands. rewrite map_map. simpl. rewrite map_id. reflexivity.
    + intros r x Hr Hx. apply IndexerFacts.in_map_fst_inv in Hx as [y Hy].
      assert (Hy' : (x, y) ∈ sort_by cands).
      { exact (skipn_elem _ _ _ Hy). }
      destruct (Hcand _ Hy') as [_ Hsc]. simpl in Hsc. rewrite <- Hsc.
      rewrite Hres in Hr.
      apply (StronglySorted_app_rel score_ge (firstn top_k (sort_by cands))
               (skipn top_k (sort_by cands)) r (x, y)); [|exact Hr|exact Hy].
      rewrite firstn_skipn. apply sort_by_sorted.
Qed.

(** The scenario of section 8: with the filter [technology = "qdrant"]
    and [top_k = 3] a higher-scoring chunk of another technology is not
    returned, and the qdrant chunks come by score. *)
Example search_qdrant_example :
  let c1 := mkChunk "milvus" "guide" "milvus/m.md" "Intro" 0 "m" in
  let c2 := mkChunk "qdrant" "guide" "q.md" "Intro" 0 "i" in
  let c3 := mkChunk "qdrant" "guide" "q.md" "Scaling" 1 "s" in
  let sc := fun (_ : string) (ch : Chunk) => Z.of_nat (String.length (file_path ch) + position ch) in
  search sc [("milvus", [c1]); ("qdrant", [c2; c3])] "scaling"
    (mkFilters (Some ["qdrant"]) None) 3 = [(c3, 5); (c2, 4)].
Proof. reflexivity. Qed.

End RetrieverFacts.

Module SynthesizerFacts.
Import Retriever Synthesizer.

Lemma labeled_elem {A} (l : list A) i x : (i, x) ∈ labeled l -> x ∈ l.
Proof.
  unfold labeled. intros H. apply list_elem_of_In in H.
  apply list_elem_of_In. exact (in_combine_r _ _ _ _ H).
Qed.

Lemma surfaced_elem retrieved cited x : x ∈ surfaced retrieved cited -> x ∈ retrieved.
Proof.
  unfold surfaced. intros H. apply list_elem_of_In, in_map_iff in H as ([i y] & <- & Hy).
  apply filter_In in Hy as [Hy _]. apply list_elem_of_In in Hy.
  exact (labeled_elem _ _ _ Hy).
Qed.

(** C4: for every synthesized answer, every entry of [sources_used] is an
    element of the retrieved chunks passed to that call, whatever labels
    the language model cites. *)
Theorem C4_sources_used_are_retrieved generate q history retrieved answer used :
  synthesize generate q history retrieved = Answer answer used ->
  forall x, x ∈ used -> x ∈ retrieved.
Proof.
  unfold synthesize. destruct (generate _) as [[a cited]|]; [|discriminate].
  intros H. injection H as _ <-. apply surfaced_elem.
Qed.

Lemma C4_sources_used_are_retrieved_witness :
  let retrieved := [(chunk_x, 3%Z); (chunk_y, 2%Z)] in
  let generate := fun _ : Prompt => Some ("answer", [1%nat; 7%nat]) in
  synthesize generate "q" [] retrieved = Answer "answer" [(chunk_y, 2%Z)] /\
  (forall x, x ∈ [(chunk_y, 2%Z)] -> x ∈ retrieved).
Proof.
  intros retrieved generate. split; [reflexivity|].
  apply (C4_sources_used_are_retrieved generate "q" [] retrieved "answer").
  reflexivity.
Defined.

End SynthesizerFacts.

Module ChatHelpersFacts.
Import ChatTypes JsString UseChat ChatRoute ChatHelpers.

Lemma drop_ws_starts l : starts_nonws (drop_ws l).
Proof.
  induction l as [|c l IH]; simpl; [exact I|].
  destruct (is_ws c) eqn:E; [exact IH|exact E].
Qed.

Lemma drop_ws_id l : starts_nonws l -> drop_ws l = l.
Proof. destruct l as [|c l]; simpl; [reflexivity|]. intros ->. reflexivity. Qed.

Lemma drop_ws_suffix l : exists w, l = w ++ drop_ws l.
Proof.
  induction l as [|c l [w Hw]]; simpl; [exists []; reflexivity|].
  destruct (is_ws c); [exists (c :: w); simpl; congruence|exists []; reflexivity].
Qed.

Lemma trim_idem s : trim (trim s) = trim s.
Proof.
  unfold trim. rewrite list_ascii_of_string_of_list_ascii.
  f_equal.
  set (r := drop_ws (list_ascii_of_string s)).
  set (t := drop_ws (rev r)).
  assert (Hr : starts_nonws r) by apply drop_ws_starts.
  assert (Ht : starts_nonws t) by apply drop_ws_starts.
  destruct (drop_ws_suffix (rev r)) as [w Hw]. fold t in Hw.
  assert (Hrt : starts_nonws (rev t)).
  { destruct (rev t) as [|a l] eqn:E; [exact I|].
    assert (r = a :: l ++ rev w) as Er.
    { rewrite <- (rev_involutive r), Hw, rev_app_distr, E. reflexivity. }
    rewrite Er in Hr. exact Hr. }
  rewrite (drop_ws_id _ Hrt), rev_involutive, (drop_ws_id _ Ht). reflexivity.
Qed.

(** [handleSubmit] with a blank input changes nothing and keeps the
    input; otherwise it has the effect of [append] on the raw input (the
    second [trim] inside [append] changes nothing), clears the input,
    appends one user message whose content is the trimmed input and sends
    a request whose message is the trimmed input. *)
Theorem handleSubmit_sends_trimmed_input cfg s input options :
  (trim input = "" -> handleSubmit cfg s input options = (s, input, None)) /\
  (trim input <> "" ->
   exists c, let s' := (append_start cfg s input options).1 in
     handleSubmit cfg s input options = (s', "", Some c) /\
     messages s' = messages s ++ [mkMessage (next_uuid s) user (trim input) []] /\
     exists r, r ∈ pending s' /\ req_ctrl r = c /\ rb_message (req_body r) = trim input).
Proof.
  split.
  - intros H. unfold handleSubmit. rewrite H. reflexivity.
  - intros H. exists (next_ctrl s). unfold handleSubmit, append_start.
    rewrite trim_idem. apply String.eqb_neq in H. rewrite H. simpl.
    split; [reflexivity|]. split; [reflexivity|].
    eexists. split; [apply elem_of_app; right; apply list_elem_of_singleton; reflexivity|].
    split; reflexivity.
Qed.

(** [updateConversationId] always leaves [newId] in
    [conversationIdRef]; it navigates to [/chat/newId] exactly when
    [newId] differs from the current id, so a second call with the same
    id does nothing; and the conversation id [append] keeps after a
    successful response is the one [updateConversationId] leaves. *)
Theorem updateConversationId_navigates_once cur newId :
  fst (updateConversationId cur newId) = Some newId /\
  (snd (updateConversationId cur newId) = [] <-> cur = Some newId) /\
  (cur <> Some newId -> snd (updateConversationId cur newId) = ["/chat/" ++ newId]%string) /\
  updateConversationId (fst (updateConversationId cur newId)) newId = (Some newId, []) /\
  (forall s c data, convRef s = cur -> conversation_id data = newId -> newId <> "" ->
     convRef (complete_ok s c data).1 = fst (updateConversationId cur newId)).
Proof.
  destruct cur as [cur|]; simpl.
  - destruct (String.eqb_spec newId cur) as [->|Hne]; simpl.
    + split; [reflexivity|]. split; [tauto|]. split; [congruence|].
      split; [rewrite String.eqb_refl; reflexivity|].
      intros s c data Hs Hd Hn. unfold complete_ok; simpl.
      rewrite Hd. apply String.eqb_neq in Hn. rewrite Hn. reflexivity.
    + split; [reflexivity|]. split; [split; [discriminate|congruence]|].
      split; [reflexivity|]. split; [rewrite String.eqb_refl; reflexivity|].
      intros s c data Hs Hd Hn. unfold complete_ok; simpl.
      rewrite Hd. apply String.eqb_neq in Hn. rewrite Hn. reflexivity.
  - split; [reflexivity|]. split; [split; [discriminate|congruence]|].
    split; [reflexivity|]. split; [rewrite String.eqb_refl; reflexivity|].
    intros s c data Hs Hd Hn. unfold complete_ok; simpl.
    rewrite Hd. apply String.eqb_neq in Hn. rewrite Hn. reflexivity.
Qed.

Lemma existsb_eqb_elem x (l : list string) : existsb (String.eqb x) l = true <-> x ∈ l.
Proof.
  rewrite existsb_exists, list_elem_of_In. split.
  - intros (y & Hy & E). apply String.eqb_eq in E. subst. exact Hy.
  - intros H. exists x. split; [exact H|apply String.eqb_refl].
Qed.

Lemma filter_neq_elem x y (l : list string) :
  y ∈ List.filter (fun id => negb (String.eqb id x)) l <-> y ∈ l /\ y <> x.
Proof.
  rewrite !list_elem_of_In, filter_In, negb_true_iff, String.eqb_neq. reflexivity.
Qed.

Lemma filter_neq_absent x (l : list string) :
  x ∉ l -> List.filter (fun id => negb (String.eqb id x)) l = l.
Proof.
  induction l as [|y l IH]; intros Hx; simpl; [reflexivity|].
  apply not_elem_of_cons in Hx as [Hne Hx].
  destruct (String.eqb_spec y x) as [->|_]; [congruence|]. simpl. rewrite IH; auto.
Qed.

(** [handleTechnologyToggle] flips the membership of the toggled id and
    leaves every other id as it was; it keeps a list without duplicates
    without duplicates; and toggling an absent id twice gives back the
    list. *)
Theorem toggle_technology_flips prev x :
  (x ∈ toggle_technology prev x <-> x ∉ prev) /\
  (forall y, y <> x -> (y ∈ toggle_technology prev x <-> y ∈ prev)) /\
  (NoDup prev -> NoDup (toggle_technology prev x)) /\
  (x ∉ prev -> toggle_technology (toggle_technology prev x) x = prev).
Proof.
  unfold toggle_technology.
  destruct (existsb (String.eqb x) prev) eqn:E.
  - apply existsb_eqb_elem in E.
    split; [rewrite filter_neq_elem; tauto|].
    split; [intros y Hy; rewrite filter_neq_elem; tauto|].
    split.
    { intros Hnd. apply NoDup_ListNoDup, List.NoDup_filter, NoDup_ListNoDup, Hnd. }
    intros H; contradiction.
  - assert (Hx : x ∉ prev) by (rewrite <- existsb_eqb_elem, E; discriminate).
    split; [rewrite elem_of_app, list_elem_of_singleton; tauto|].
    split.
    { intros y Hy. rewrite elem_of_app, list_elem_of_singleton. tauto. }
    split.
    { intros Hnd. apply NoDup_app. split; [exact Hnd|]. split.
      - intros y Hy Hy'. apply list_elem_of_singleton in Hy'. subst. contradiction.
      - apply NoDup_singleton. }
    intros _. rewrite (proj2 (existsb_eqb_elem x (prev ++ [x])))
      by (apply elem_of_app; right; apply list_elem_of_singleton; reflexivity).
    rewrite List.filter_app, filter_neq_absent by exact Hx. simpl.
    rewrite String.eqb_refl. simpl. apply app_nil_r.
Qed.
End ChatHelpersFacts.

Module HookFacts.
Import ChatTypes JsString UseChat ChatRoute ChatHelpers.

Lemma hook_inv_init ms cid u : hook_inv (init ms cid u).
Proof.
  split; [exists 0; split; [reflexivity|simpl; lia]|].
  split; [intros a Ha; apply elem_of_nil in Ha; contradiction|].
  split; [intros r Hr; apply elem_of_nil in Hr; contradiction|].
  discriminate.
Qed.

Lemma hook_inv_append_start cfg s content options :
  hook_inv s -> hook_inv (append_start cfg s content options).1.
Proof.
  intros Hinv. pose proof Hinv as ((k & Hk & Hkn) & Ha & Hp & Hl). unfold append_start.
  destruct (String.eqb_spec (trim content) "") as [_|Ht]; [exact Hinv|].
  simpl. rewrite Hk. unfold hook_inv; simpl.
  split; [exists (next_ctrl s); split; [reflexivity|lia]|].
  split.
  { intros a Hin. apply elem_of_cons in Hin as [->|Hin]; [lia|]. specialize (Ha a Hin). lia. }
  split.
  { intros r Hr. apply elem_of_app in Hr as [Hr|Hr].
    - destruct (Hp r Hr) as (? & ? & ?). split; [lia|]. auto.
    - apply list_elem_of_singleton in Hr. subst r. simpl.
      split; [lia|]. split; [exact Ht|apply ChatHelpersFacts.trim_idem]. }
  intros _. eexists. split.
  { apply elem_of_app. right. apply list_elem_of_singleton. reflexivity. }
  split; [reflexivity|]. simpl.
  intros Hin. apply elem_of_cons in Hin as [E|Hin]; [lia|]. specialize (Ha _ Hin). lia.
Qed.

Lemma hook_inv_reload cfg s options :
  hook_inv s -> hook_inv (reload cfg s options).1.
Proof.
  intros Hinv. unfold reload.
  destruct (messages s); [exact Hinv|].
  destruct (Z.eqb _ _); [exact Hinv|].
  destruct (_ !! _).
  - apply hook_inv_append_start. exact Hinv.
  - exact Hinv.
Qed.

Lemma hook_inv_stop s : hook_inv s -> hook_inv (stop s).
Proof.
  intros ((k & Hk & Hkn) & Ha & Hp & Hl). unfold stop. rewrite Hk. unfold hook_inv; simpl.
  split; [exists k; split; [reflexivity|exact Hkn]|].
  split; [intros a Hin; apply elem_of_cons in Hin as [->|Hin]; auto|].
  split; [exact Hp|]. discriminate.
Qed.

Lemma hook_inv_complete_ok s c data :
  hook_inv s -> hook_inv (complete_ok s c data).1.
Proof.
  intros (Hk & Ha & Hp & Hl).
  split; [exact Hk|]. split; [exact Ha|].
  split; [intros r Hr; apply UseChatFacts.remove_req_sub in Hr; auto|]. discriminate.
Qed.

Lemma hook_inv_complete_err s c e :
  hook_inv s -> hook_inv (complete_err s c e).1.
Proof.
  intros (Hk & Ha & Hp & Hl).
  split; [exact Hk|]. split; [exact Ha|].
  split; [intros r Hr; apply UseChatFacts.remove_req_sub in Hr; auto|]. discriminate.
Qed.

Lemma hook_inv_step cfg s s' : step cfg s s' -> hook_inv s -> hook_inv s'.
Proof.
  destruct 1.
  - apply hook_inv_append_start.
  - apply hook_inv_reload.
  - apply hook_inv_stop.
  - apply hook_inv_complete_ok.
  - apply hook_inv_complete_err.
Qed.

Lemma reachable_hook_inv cfg ms cid u s :
  reachable cfg ms cid u s -> hook_inv s.
Proof.
  unfold reachable. intros H.
  remember (init ms cid u) as s0 eqn:E.
  assert (hook_inv s0) by (subst; apply hook_inv_init). clear E.
  induction H; eauto using hook_inv_step.
Qed.

(** [stop] in a reachable state always finds a controller in
    [abortControllerRef]: it clears [isLoading], leaves the messages as
    they are, and afterwards every request in flight carries an aborted
    signal, so none of them can resolve ([step_resolve] needs a signal
    that was not aborted); they can only reject. *)
Theorem stop_cancels_every_request cfg ms cid u s :
  reachable cfg ms cid u s ->
  isLoading (stop s) = false /\ messages (stop s) = messages s /\
  pending (stop s) = pending s /\
  (forall r, r ∈ pending (stop s) -> req_ctrl r ∈ aborted (stop s)).
Proof.
  intros Hr.
  pose proof (UseChatFacts.reachable_live_inv _ _ _ _ _ Hr) as Hlive.
  destruct (reachable_hook_inv _ _ _ _ _ Hr) as ((k & Hk & _) & _).
  unfold stop. rewrite Hk; simpl.
  split; [reflexivity|]. split; [reflexivity|]. split; [reflexivity|].
  intros r Hp. destruct (decide (req_ctrl r ∈ aborted s)) as [Ha|Ha].
  - apply elem_of_cons. right. exact Ha.
  - apply elem_of_cons. left. pose proof (Hlive r Hp Ha) as E. congruence.
Qed.

Lemma stop_cancels_every_request_witness :
  pending (stop (append_start chat_cfg (init [] None 0) "a" None).1) <> [] /\
  1 ∈ aborted (stop (append_start chat_cfg (init [] None 0) "a" None).1).
Proof.
  split; [discriminate|].
  destruct (stop_cancels_every_request chat_cfg [] None 0 _
              (rtc_once _ _ (step_append _ _ "a" None))) as (_ & _ & _ & H).
  exact (H (mkRequest 1 (mkRequestBody "a" None [] []))
           (proj2 (list_elem_of_singleton _ _) eq_refl)).
Defined.

(** While [isLoading] is set in a reachable state, the request of the
    controller in [abortControllerRef] is in flight and its signal was
    not aborted. *)
Theorem loading_has_live_request cfg ms cid u s :
  reachable cfg ms cid u s -> isLoading s = true ->
  exists r, r ∈ pending s /\ ctrl s = Some (req_ctrl r) /\ req_ctrl r ∉ aborted s.
Proof.
  intros Hr Hl. destruct (reachable_hook_inv _ _ _ _ _ Hr) as (_ & _ & _ & H).
  exact (H Hl).
Qed.

Lemma loading_has_live_request_witness :
  exists r, r ∈ pending (append_start chat_cfg (init [] None 0) "a" None).1 /\
    ctrl (append_start chat_cfg (init [] None 0) "a" None).1 = Some (req_ctrl r) /\
    req_ctrl r ∉ aborted (append_start chat_cfg (init [] None 0) "a" None).1.
Proof.
  exact (loading_has_live_request chat_cfg [] None 0 _
           (rtc_once _ _ (step_append _ _ "a" None)) eq_refl).
Defined.

(** Two turns sent back to back: the first one's request is aborted by
    the second [append], and when it rejects, the [catch] and [finally]
    of the first call still run.  They clear [isLoading] and set [error]
    although the second request is in flight, not aborted, and can
    still resolve. *)
Theorem stale_rejection_clears_loading cfg ms cid u s c1 o1 c2 o2 s1 k1 s2 k2 e :
  reachable cfg ms cid u s ->
  append_start cfg s c1 o1 = (s1, Some k1) ->
  append_start cfg s1 c2 o2 = (s2, Some k2) ->
  let s3 := (complete_err s2 k1 e).1 in
  (step cfg s2 s3 /\ isLoading s3 = false /\ error s3 = Some e /\
   exists r2, r2 ∈ pending s3 /\ req_ctrl r2 = k2 /\ (req_ctrl r2 ∉ aborted s3) /\
     ctrl s3 = Some k2).
Proof.
  intros Hr H1 H2 s3.
  destruct (reachable_hook_inv _ _ _ _ _ Hr) as ((k & Hk & Hkn) & Ha & _).
  unfold append_start in H1.
  destruct (String.eqb (trim c1) ""); [discriminate|].
  injection H1 as <- <-.
  unfold append_start in H2. simpl in H2.
  destruct (String.eqb (trim c2) ""); [discriminate|].
  injection H2 as <- <-. subst s3.
  split.
  { refine (step_reject _ _ (mkRequest (next_ctrl s) _) e _).
    simpl. apply elem_of_app. left. apply elem_of_app. right.
    apply list_elem_of_singleton. reflexivity. }
  split; [reflexivity|]. split; [reflexivity|].
  eexists. split.
  { simpl. unfold remove_req. apply list_elem_of_In, filter_In. split.
    - apply list_elem_of_In, elem_of_app. right. apply list_elem_of_singleton. reflexivity.
    - cbn [req_ctrl]. apply negb_true_iff, Nat.eqb_neq. lia. }
  split; [reflexivity|]. split; [|reflexivity].
  simpl. rewrite Hk. intros Hin.
  apply elem_of_cons in Hin as [E|Hin]; [lia|].
  apply elem_of_cons in Hin as [E|Hin]; [lia|].
  specialize (Ha _ Hin). lia.
Qed.

Lemma stale_rejection_clears_loading_witness :
  isLoading (complete_err (append_start chat_cfg
     (append_start chat_cfg (init [] None 0) "a" None).1 "b" None).1 1 "aborted").1 = false /\
  2 ∉ aborted (complete_err (append_start chat_cfg
     (append_start chat_cfg (init [] None 0) "a" None).1 "b" None).1 1 "aborted").1.
Proof.
  destruct (stale_rejection_clears_loading chat_cfg [] None 0 (init [] None 0)
              "a" None "b" None _ 1 _ 2 "aborted" (rtc_refl _ _) eq_refl eq_refl)
    as (_ & Hl & _ & r2 & _ & Hk & Hna & _).
  split; [exact Hl|]. rewrite <- Hk. exact Hna.
Defined.

Lemma last_user_split (ms : list Message) :
  (forall m, m ∈ ms -> role m <> user) \/
  exists pre m post, ms = pre ++ m :: post /\ role m = user /\
    (forall m', m' ∈ post -> role m' <> user).
Proof.
  induction ms as [|x l [Hl|(pre & m & post & E & Hm & Hpost)]].
  - left. intros m Hm. apply elem_of_nil in Hm. contradiction.
  - destruct (role x) eqn:Ex.
    + right. exists [], x, l. auto.
    + left. intros m Hm. apply elem_of_cons in Hm as [->|Hm]; [rewrite Ex; discriminate|auto].
    + left. intros m Hm. apply elem_of_cons in Hm as [->|Hm]; [rewrite Ex; discriminate|auto].
  - right. exists (x :: pre), m, post. rewrite E. auto.
Qed.

(** The [reduceRight] in [reload] finds the last user message: it gives
    [-1] exactly when no message has the role [user], and otherwise the
    position of a user message after which every message has another
    role. *)
Theorem lastUserMessageIndex_finds_last_user ms :
  (lastUserMessageIndex ms = (-1)%Z <-> forall m, m ∈ ms -> role m <> user) /\
  (lastUserMessageIndex ms <> (-1)%Z ->
   exists pre m post, ms = pre ++ m :: post /\ role m = user /\
     (forall m', m' ∈ post -> role m' <> user) /\
     lastUserMessageIndex ms = Z.of_nat (length pre) /\
     ms !! length pre = Some m).
Proof.
  destruct (last_user_split ms) as [Hno|(pre & m & post & E & Hm & Hpost)].
  - assert (Hi : lastUserMessageIndex ms = (-1)%Z).
    { unfold lastUserMessageIndex. apply UseChatFacts.lum_fold_no_user. exact Hno. }
    split; [split; [intros _; exact Hno|intros _; exact Hi]|]. intros Hn. contradiction.
  - assert (Hi : lastUserMessageIndex ms = Z.of_nat (length pre)).
    { subst ms. apply UseChatFacts.lastUserMessageIndex_last; assumption. }
    split.
    + rewrite Hi. split; [lia|]. intros Hall. exfalso. apply (Hall m); [|exact Hm].
      subst ms. apply elem_of_app. right. apply elem_of_cons. left. reflexivity.
    + intros _. exists pre, m, post. split; [exact E|]. split; [exact Hm|].
      split; [exact Hpost|]. split; [exact Hi|].
      subst ms. replace (length pre) with (length pre + 0) by lia.
      apply list_lookup_middle. lia.
Qed.

Lemma requestBody_json_schema (rb : RequestBody) :
  chatRequest_to_json (mkChatRequest (rb_message rb) (rb_conversation_id rb)
     (Some (rb_technologies rb)) (Some (rb_categories rb))) = requestBody_to_json rb.
Proof. destruct rb as [m [cid|] t c]; reflexivity. Qed.

(** Every request the hook has in flight is one the chat route accepts:
    the JSON [append] sends passes [chatRequestSchema] unchanged (its
    message is non-empty and already trimmed, and both arrays are
    present), the route forwards exactly that JSON to the back end, and
    a 2xx answer of the back end comes back with status 200. *)
Theorem hook_requests_pass_route cfg ms cid u s r :
  reachable cfg ms cid u s -> r ∈ pending s ->
  let rb := req_body r in
  let validated := mkChatRequest (rb_message rb) (rb_conversation_id rb)
                     (Some (rb_technologies rb)) (Some (rb_categories rb)) in
  (rb_message rb <> ""%string /\ trim (rb_message rb) = rb_message rb /\
   chatRequestSchema_parse (requestBody_to_json rb) = Some validated /\
   chatRequest_to_json validated = requestBody_to_json rb /\
   forall backend st d,
     backend (requestBody_to_json rb) = (st, Some d) -> is_ok st = true ->
     POST backend (Some (requestBody_to_json rb)) = mkResp 200 d).
Proof.
  intros Hr Hp rb validated.
  destruct (reachable_hook_inv _ _ _ _ _ Hr) as (_ & _ & Hpend & _).
  destruct (Hpend r Hp) as (_ & Hne & Htrim). fold rb in Hne, Htrim.
  assert (Hj : chatRequest_to_json validated = requestBody_to_json rb)
    by apply requestBody_json_schema.
  assert (Hparse : chatRequestSchema_parse (requestBody_to_json rb) = Some validated)
    by (rewrite <- Hj; apply ChatRouteFacts.chatRequest_roundtrip; exact Hne).
  split; [exact Hne|]. split; [exact Htrim|]. split; [exact Hparse|].
  split; [exact Hj|].
  intros backend st d Hb Hok. rewrite <- Hj in Hb |- *.
  unfold POST. rewrite ChatRouteFacts.read_message_request.
  replace (truthy (Some (JStr (message validated)))) with true
    by (simpl; destruct (String.eqb_spec (rb_message rb) ""); [congruence|reflexivity]).
  rewrite ChatRouteFacts.chatRequest_roundtrip by exact Hne. simpl.
  rewrite Hb, Hok. reflexivity.
Qed.

Lemma hook_requests_pass_route_witness :
  POST (fun _ => (200%Z, Some JNull))
    (Some (requestBody_to_json (mkRequestBody "a" None [] []))) = mkResp 200 JNull.
Proof.
  refine (proj2 (proj2 (proj2 (proj2
    (hook_requests_pass_route chat_cfg [] None 0 _ (mkRequest 1 (mkRequestBody "a" None [] []))
       (rtc_once _ _ (step_append _ _ "a" None))
       (proj2 (list_elem_of_singleton _ _) eq_refl))))) _ 200%Z JNull eq_refl eq_refl).
Defined.
End HookFacts.

Module PageFacts.
Import ChatRoute ChatPage.

(** [getChat] gives [null] exactly when [fetch] rejects, the status is not
    2xx (a 404 and any other failure alike) or the body is not JSON.  On
    a 2xx JSON body it gives the body's [messages] when that is truthy,
    whatever its shape, and [[]] otherwise (no [messages] key, [null],
    [false], [0], [""], or a body that is not an object). *)
Theorem getChat_null_iff_failed r :
  (getChat r = None <->
   r = None \/ exists st body, r = Some (st, body) /\ (is_ok st = false \/ body = None)) /\
  (forall st data, is_ok st = true ->
     getChat (Some (st, Some data)) =
       Some (match messages_of data with
             | Some m => if truthy (Some m) then m else JArr []
             | None => JArr []
             end)).
Proof.
  split.
  - destruct r as [[st [data|]]|]; simpl.
    + destruct (is_ok st) eqn:Eok; simpl.
      * split; [destruct (truthy (messages_of data)), (messages_of data); discriminate|].
        intros [H|(st' & b & H & [Hb|Hb])]; [discriminate| |];
          injection H as <- <-; congruence.
      * split; [intros _; right; exists st, (Some data); auto|].
        intros _. destruct (Z.eqb st 404); reflexivity.
    + split; [intros _; right; exists st, None; auto|].
      intros _. destruct (is_ok st); simpl; [reflexivity|]. destruct (Z.eqb st 404); reflexivity.
    + split; [intros _; left; reflexivity|]. intros _. reflexivity.
  - intros st data Hok. unfold getChat. rewrite Hok.
    destruct (messages_of data) as [m|]; [|reflexivity].
    destruct (truthy (Some m)); reflexivity.
Qed.

(** [ChatPage] and [generateMetadata] agree on the same reply: for the id
    ["new"] neither looks at the reply; for any other id the page is the
    not-found page exactly when the title is ["Chat Not Found"], which is
    exactly when [getChat] gives [null], and otherwise the page shows the
    messages [getChat] gave with [initialId] set to the id.  The title
    ["Chat Error"] is never produced. *)
Theorem chatPage_matches_metadata id r :
  (id = "new"%string ->
     ChatPage id r = ChatView (JArr []) None /\ fst (generateMetadata id r) = "New Chat"%string) /\
  (id <> "new"%string ->
     (ChatPage id r = NotFound <-> getChat r = None) /\
     (ChatPage id r = NotFound <-> fst (generateMetadata id r) = "Chat Not Found"%string) /\
     (forall ms, getChat r = Some ms -> ChatPage id r = ChatView ms (Some id))) /\
  fst (generateMetadata id r) <> "Chat Error"%string.
Proof.
  unfold ChatPage, generateMetadata.
  destruct (String.eqb_spec id "new") as [->|Hn].
  - split; [intros _; split; reflexivity|]. split; [intros H; congruence|]. discriminate.
  - split; [intros H; congruence|].
    destruct (getChat r) as [ms|].
    + split; [intros _; split; [split; discriminate|]; split; [split; discriminate|];
              intros ms' H; injection H as ->; reflexivity|]. discriminate.
    + split; [intros _; split; [tauto|]; split; [tauto|]; intros ms' H; discriminate|].
      discriminate.
Qed.

(** The page's [getChat] and the history route's
    [GET_SINGLE_CONVERSATION] agree on the same reply of the back end:
    the route answers 404 exactly when the back end did, 200 or 500
    otherwise, and [getChat] gives [null] exactly when the route does not
    answer 200; on a 200 the route passes the back end's body through. *)
Theorem getChat_agrees_with_route r :
  (status (GET_SINGLE_CONVERSATION r) = 404%Z <-> exists body, r = Some (404%Z, body)) /\
  (status (GET_SINGLE_CONVERSATION r) = 200%Z \/
   status (GET_SINGLE_CONVERSATION r) = 404%Z \/
   status (GET_SINGLE_CONVERSATION r) = 500%Z) /\
  (getChat r = None <-> status (GET_SINGLE_CONVERSATION r) <> 200%Z) /\
  (forall st data, r = Some (st, Some data) -> status (GET_SINGLE_CONVERSATION r) = 200%Z ->
     payload (GET_SINGLE_CONVERSATION r) = data).
Proof.
  destruct r as [[st [data|]]|]; unfold GET_SINGLE_CONVERSATION, getChat.
  - destruct (Z.eqb_spec st 404) as [->|Hn].
    + simpl. split; [split; [intros _; eauto|reflexivity]|].
      split; [auto|]. split; [split; [discriminate|reflexivity]|]. discriminate.
    + destruct (is_ok st) eqn:Eok; simpl.
      * split; [split; [discriminate|intros (b & H); injection H as -> _; contradiction]|].
        split; [auto|].
        split; [split; [destruct (truthy (messages_of data)), (messages_of data); discriminate|
                        intros H; contradiction]|].
        intros st' d H _. injection H as _ ->. reflexivity.
      * split; [split; [discriminate|intros (b & H); injection H as -> _; contradiction]|].
        split; [auto|].
        split; [split; [intros _; discriminate|reflexivity]|]. discriminate.
  - destruct (Z.eqb_spec st 404) as [->|Hn].
    + simpl. split; [split; [intros _; eauto|reflexivity]|].
      split; [auto|]. split; [split; [discriminate|reflexivity]|]. discriminate.
    + split; [split; [destruct (is_ok st); discriminate|
                      intros (b & H); injection H as -> _; contradiction]|].
      split; [destruct (is_ok st); auto|].
      split; [destruct (is_ok st); simpl; split; first [discriminate|reflexivity]|].
      intros st' d H. discriminate.
  - split; [split; [discriminate|intros (b & H); discriminate]|].
    split; [auto|]. split; [split; [discriminate|reflexivity]|]. discriminate.
Qed.
End PageFacts.

Module RouteFacts.
Import ChatRoute.

Lemma parse_reads_message b r :
  chatRequestSchema_parse b = Some r ->
  message r <> ""%string /\ read_message b = Some (Some (JStr (message r))).
Proof.
  destruct b as [| | | | |fs]; simpl; try discriminate.
  destruct (get_field fs "message") as [[| | |m| |]|] eqn:Em; simpl; try discriminate.
  destruct (String.length m) as [|n] eqn:Hl; [discriminate|].
  destruct (parse_opt_string _), (parse_opt_strings (get_field fs "technologies")),
    (parse_opt_strings (get_field fs "categories")); try discriminate.
  intros H. injection H as <-. simpl. split; [|reflexivity].
  intros ->. discriminate.
Qed.

Lemma truthy_nonempty_string m : m <> ""%string -> truthy (Some (JStr m)) = true.
Proof. intros Hm. simpl. destruct (String.eqb_spec m ""); [contradiction|reflexivity]. Qed.

(** A body that [chatRequestSchema] rejects never reaches the back end:
    the answer does not depend on it, and it is 500 for the body [null]
    (reading [body.message] throws a [TypeError]) and 400 for any other
    body.  A body that is not JSON at all is answered with 500. *)
Theorem POST_rejects_without_backend backend b :
  chatRequestSchema_parse b = None ->
  POST backend (Some b) =
    (match b with JNull => internal_error | _ => invalid_request end).
Proof.
  intros Hp. unfold POST.
  destruct b as [| | | | |fs]; cbn [read_message]; try reflexivity.
  destruct (negb (truthy (get_field fs "message"))); [reflexivity|].
  rewrite Hp. reflexivity.
Qed.

Lemma POST_rejects_without_backend_witness :
  POST (fun _ => (200%Z, Some JNull)) (Some (JObj [("message", JStr "")])) = invalid_request /\
  POST (fun _ => (200%Z, Some JNull)) (Some JNull) = internal_error.
Proof.
  split.
  - exact (POST_rejects_without_backend _ (JObj [("message", JStr "")]) eq_refl).
  - exact (POST_rejects_without_backend _ JNull eq_refl).
Defined.

(** Validation strips what the schema does not name: a body that
    [chatRequestSchema] accepts is answered as its validated value,
    re-serialised, would be; keys outside the schema, and repeated keys
    but the last, play no part. *)
Theorem POST_answers_validated_body backend b r :
  chatRequestSchema_parse b = Some r ->
  POST backend (Some b) = POST backend (Some (chatRequest_to_json r)).
Proof.
  intros Hp. destruct (parse_reads_message b r Hp) as [Hne Hm].
  unfold POST.
  rewrite Hm, ChatRouteFacts.read_message_request, truthy_nonempty_string by exact Hne.
  rewrite Hp, ChatRouteFacts.chatRequest_roundtrip by exact Hne. reflexivity.
Qed.

Lemma POST_answers_validated_body_witness :
  POST (fun j => (200%Z, Some j))
    (Some (JObj [("message", JStr "hi"); ("text", JStr "x"); ("message", JStr "yo")])) =
  mkResp 200 (JObj [("message", JStr "yo")]).
Proof.
  rewrite (POST_answers_validated_body _
    (JObj [("message", JStr "hi"); ("text", JStr "x"); ("message", JStr "yo")])
    (mkChatRequest "yo" None None None) eq_refl).
  reflexivity.
Defined.

(** The status of [POST]: 200 exactly when the body validates and the
    back end answers 2xx with a JSON body, which is then the payload; a
    non-2xx status of the back end is passed through when
    [NextResponse.json] accepts it (200-599 and not a null body status),
    and any other non-2xx status gives 500; and every answer that is not a
    200 is an object whose first key is ["error"]. *)
Theorem POST_status backend body :
  (status (POST backend body) = 200%Z <->
   exists b r st d, body = Some b /\ chatRequestSchema_parse b = Some r /\
     backend (chatRequest_to_json r) = (st, Some d) /\ is_ok st = true /\
     POST backend body = mkResp 200 d) /\
  (forall b r, body = Some b -> chatRequestSchema_parse b = Some r ->
     is_ok (fst (backend (chatRequest_to_json r))) = false ->
     status (POST backend body) =
       if json_status_ok (fst (backend (chatRequest_to_json r)))
       then fst (backend (chatRequest_to_json r)) else 500%Z) /\
  (status (POST backend body) <> 200%Z ->
   exists v rest, payload (POST backend body) = JObj (("error"%string, v) :: rest)).
Proof.
  destruct body as [b|].
  2:{ split; [split; [discriminate|intros (b & r & st & d & H & _); discriminate]|].
      split; [intros b r H; discriminate|]. intros _. eexists _, _. reflexivity. }
  destruct (chatRequestSchema_parse b) as [r|] eqn:Hp.
  - rewrite (POST_answers_validated_body backend b r Hp).
    destruct (parse_reads_message b r Hp) as [Hne _].
    assert (Hpost : POST backend (Some (chatRequest_to_json r)) =
      let (st, rj) := backend (chatRequest_to_json r) in
      if negb (is_ok st) then
        let detail := match rj with
                      | Some (JObj fs) => get_field fs "detail"
                      | _ => None
                      end in
        if json_status_ok st then
          mkResp st (JObj [("error", if truthy detail then
                                        match detail with Some d => d | None => JNull end
                                      else JStr "Backend API error");
                           ("status", JNum st)])
        else internal_error
      else match rj with
           | Some data => mkResp 200 data
           | None => internal_error
           end).
    { unfold POST.
      rewrite ChatRouteFacts.read_message_request, truthy_nonempty_string by exact Hne.
      rewrite ChatRouteFacts.chatRequest_roundtrip by exact Hne. reflexivity. }
    rewrite Hpost.
    destruct (backend (chatRequest_to_json r)) as [st rj] eqn:Hb.
    destruct (is_ok st) eqn:Hok; simpl.
    + destruct rj as [d|]; simpl.
      * split; [split; [intros _; exists b, r, st, d; auto|reflexivity]|].
        split; [intros b' r' H H'; injection H as <-; rewrite Hp in H';
                injection H' as <-; rewrite Hb; simpl; congruence|].
        intros H; contradiction.
      * split; [split; [discriminate|]|].
        { intros (b' & r' & st' & d & H & H' & Hb' & _).
          injection H as <-. rewrite Hp in H'. injection H' as <-. congruence. }
        split; [intros b' r' H H'; injection H as <-; rewrite Hp in H';
                injection H' as <-; rewrite Hb; simpl; congruence|].
        intros _. eexists _, _. reflexivity.
    + assert (Hst : st <> 200%Z) by (intros ->; discriminate).
      destruct (json_status_ok st) eqn:Hj; simpl.
      * split; [split; [intros H; contradiction|]|].
        { intros (b' & r' & st' & d & H & H' & Hb' & Hok' & _).
          injection H as <-. rewrite Hp in H'. injection H' as <-. congruence. }
        split; [intros b' r' H H'; injection H as <-; rewrite Hp in H';
                injection H' as <-; rewrite Hb; simpl; rewrite Hj; reflexivity|].
        intros _. eexists _, _. reflexivity.
      * split; [split; [discriminate|]|].
        { intros (b' & r' & st' & d & H & H' & Hb' & Hok' & _).
          injection H as <-. rewrite Hp in H'. injection H' as <-. congruence. }
        split; [intros b' r' H H'; injection H as <-; rewrite Hp in H';
                injection H' as <-; rewrite Hb; simpl; rewrite Hj; reflexivity|].
        intros _. eexists _, _. reflexivity.
  - rewrite (POST_rejects_without_backend backend b Hp).
    assert (Hr : forall b' r', Some b = Some b' -> chatRequestSchema_parse b' = Some r' -> False)
      by (intros b' r' H H'; injection H as <-; congruence).
    split; [split; [destruct b; discriminate|]|].
    { intros (b' & r' & _ & _ & H & H' & _). exfalso. exact (Hr b' r' H H'). }
    split; [intros b' r' H H'; exfalso; exact (Hr b' r' H H')|].
    intros _. destruct b; eexists _, _; reflexivity.
Qed.
(** A back end answering 304 makes [NextResponse.json] throw; the route
    answers 500. *)
Lemma POST_backend_304 :
  status (POST (fun _ => (304%Z, Some (JObj [("detail", JStr "x")])))
               (Some (JObj [("message", JStr "hi")]))) = 500%Z.
Proof. reflexivity. Qed.
End RouteFacts.

Module SourceLinksFacts.
Import ChatTypes SourceLinks.
Local Open Scope string_scope.

(** stdpp makes [String.append] opaque to [simpl]; these are its
    equations. *)
Lemma append_nil_l t : "" ++ t = t.
Proof. reflexivity. Qed.

Lemma append_cons a s t : String a s ++ t = String a (s ++ t).
Proof. reflexivity. Qed.

Lemma append_nil_r s : s ++ "" = s.
Proof. induction s as [|a s IH]; [reflexivity|]. rewrite append_cons, IH. reflexivity. Qed.

Lemma append_assoc s t u : s ++ (t ++ u) = (s ++ t) ++ u.
Proof. induction s as [|a s IH]; [reflexivity|]. rewrite !append_cons, IH. reflexivity. Qed.

Lemma replace_first_eq pat rep s :
  replace_first pat rep s =
    if starts_with pat s then rep ++ drop_str (String.length pat) s else
    match s with
    | EmptyString => EmptyString
    | String c r => String c (replace_first pat rep r)
    end.
Proof. destruct s; reflexivity. Qed.

Lemma starts_with_app pat x : starts_with pat (pat ++ x) = true.
Proof.
  induction pat as [|a p IH]; [reflexivity|].
  rewrite append_cons. simpl. rewrite Ascii.eqb_refl. exact IH.
Qed.

Lemma drop_str_app pat x : drop_str (String.length pat) (pat ++ x) = x.
Proof. induction pat as [|a p IH]; [reflexivity|]. rewrite append_cons. exact IH. Qed.

Lemma replace_first_prefix pat rep x : replace_first pat rep (pat ++ x) = rep ++ x.
Proof. rewrite replace_first_eq, starts_with_app, drop_str_app. reflexivity. Qed.

Lemma before_char_app c w s :
  has_char c w = false -> before_char c (w ++ s) = w ++ before_char c s.
Proof.
  induction w as [|a w IH]; [reflexivity|].
  intros H. simpl in H. apply orb_false_iff in H as [Ha Hw].
  rewrite !append_cons. simpl. rewrite Ha, IH by exact Hw. reflexivity.
Qed.

Lemma before_char_hit c s : before_char c (String c s) = "".
Proof. simpl. rewrite Ascii.eqb_refl. reflexivity. Qed.

Lemma after_last_plain c f cur : has_char c f = false -> after_last c f cur = cur ++ f.
Proof.
  revert cur. induction f as [|a f IH]; intros cur H; simpl.
  - rewrite append_nil_r. reflexivity.
  - simpl in H. apply orb_false_iff in H as [Ha Hf]. rewrite Ha, IH by exact Hf.
    rewrite <- append_assoc. reflexivity.
Qed.

Lemma after_last_last c w f cur :
  has_char c f = false -> after_last c (w ++ String c f) cur = f.
Proof.
  revert cur. induction w as [|a w IH]; intros cur H.
  - simpl. rewrite Ascii.eqb_refl. apply after_last_plain. exact H.
  - rewrite append_cons. simpl. destruct (Ascii.eqb a c); apply IH; exact H.
Qed.

Lemma starts_with_has_char pat t c :
  starts_with pat t = true -> has_char c pat = true -> has_char c t = true.
Proof.
  revert t. induction pat as [|a p IH]; intros t Hs Hc; [discriminate|].
  destruct t as [|b t]; [discriminate|]. simpl in *.
  apply andb_true_iff in Hs as [Hab Hs]. apply Ascii.eqb_eq in Hab. subst b.
  apply orb_true_iff in Hc as [Hc|Hc]; [rewrite Hc; reflexivity|].
  rewrite (IH t Hs Hc). apply orb_true_r.
Qed.

(** A pattern without [sep] that matches across a [sep] matches before
    it. *)
Lemma starts_with_before_sep q t sep rest :
  has_char sep q = false -> starts_with q (t ++ String sep rest) = true ->
  starts_with q t = true.
Proof.
  revert q. induction t as [|a t IH]; intros q Hq Hs.
  - destruct q as [|b q]; [reflexivity|]. simpl in *.
    apply andb_true_iff in Hs as [Hb _]. apply Ascii.eqb_eq in Hb. subst b.
    rewrite Ascii.eqb_refl in Hq. discriminate.
  - destruct q as [|b q]; [reflexivity|]. rewrite append_cons in Hs. simpl in *.
    apply orb_false_iff in Hq as [_ Hq].
    apply andb_true_iff in Hs as [Hb Hs]. rewrite Hb. apply IH; assumption.
Qed.

(** [replace_first] walks past a stretch [w] in which the pattern cannot
    start: [w] lacks a character [c] of the pattern and is followed by a
    separator that only the pattern's first character may be. *)
Lemma replace_first_skip p0 ptail rep w sep rest c :
  has_char sep ptail = false -> has_char c (String p0 ptail) = true ->
  has_char c w = false ->
  replace_first (String p0 ptail) rep (w ++ String sep rest) =
    w ++ replace_first (String p0 ptail) rep (String sep rest).
Proof.
  intros Hsep Hc. induction w as [|a w IH]; intros Hw; [reflexivity|].
  simpl in Hw. apply orb_false_iff in Hw as [Ha Hw].
  rewrite replace_first_eq, !append_cons.
  destruct (starts_with (String p0 ptail) (String a (w ++ String sep rest))) eqn:Hs.
  - exfalso. simpl in Hs. apply andb_true_iff in Hs as [Hp Hs].
    apply Ascii.eqb_eq in Hp. subst a.
    apply (starts_with_before_sep _ _ _ _ Hsep) in Hs.
    assert (Ht : has_char c (String p0 w) = true)
      by (apply (starts_with_has_char (String p0 ptail)); simpl;
          [rewrite Ascii.eqb_refl; exact Hs|exact Hc]).
    simpl in Ht. rewrite Ha, Hw in Ht. discriminate.
  - rewrite IH by exact Hw. reflexivity.
Qed.

(** The documentation links for Qdrant and Milvus, and for any other
    technology: a Qdrant file [data/qdrant_docs/<rel>.<ext>] links to
    [https://qdrant.tech/<rel>] when [rel] has no dot; a Milvus file
    [<dir>/<name>] links to [https://milvus.io/docs/<name>] (extension
    kept); any other technology gets the empty link, so no link is
    shown.  [SourceItem] and [SourceDetails] agree on all of these. *)
Theorem doc_url_qdrant_milvus src :
  (forall rel ext, technology src = "qdrant" ->
     file_path src = "data/qdrant_docs/" ++ rel ++ "." ++ ext -> has_char "." rel = false ->
     item_doc_url src = "https://qdrant.tech/" ++ rel /\
     details_doc_url src = "https://qdrant.tech/" ++ rel) /\
  (forall dir name, technology src = "milvus" ->
     file_path src = dir ++ "/" ++ name -> has_char "/" name = false ->
     item_doc_url src = "https://milvus.io/docs/" ++ name /\
     details_doc_url src = "https://milvus.io/docs/" ++ name) /\
  (technology src <> "qdrant" -> technology src <> "milvus" -> technology src <> "weaviate" ->
     item_doc_url src = "" /\ details_doc_url src = "") /\
  (technology src <> "weaviate" -> item_doc_url src = details_doc_url src).
Proof.
  unfold item_doc_url, details_doc_url.
  split; [|split; [|split]].
  - intros rel ext Ht Hf Hd. rewrite Ht, Hf. simpl.
    rewrite !append_nil_l, before_char_app by exact Hd.
    change ("." ++ ext) with (String "." ext). rewrite before_char_hit, append_nil_r.
    split; reflexivity.
  - intros dir name Ht Hf Hn. rewrite Ht, Hf. simpl.
    change ("/" ++ name) with (String "/" name).
    rewrite after_last_last by exact Hn. split; reflexivity.
  - intros H1 H2 H3.
    rewrite (proj2 (String.eqb_neq _ _) H1), (proj2 (String.eqb_neq _ _) H2),
      (proj2 (String.eqb_neq _ _) H3). split; reflexivity.
  - intros H3. rewrite (proj2 (String.eqb_neq _ _) H3). reflexivity.
Qed.

(** The Weaviate links.  For a file [data/weaviate_docs/<w>.<ext>] whose
    path [w] has neither an ["x"] (so it does not contain ["index"]) nor
    a dot, both components link to the page [w].  For a file
    [data/weaviate_docs/<d>/index<g>.<ext>] (an index page when [g] is
    empty) they differ, and neither keeps the path: [SourceItem] drops
    ["index"] and links to [<d>/<g>], [SourceDetails] drops ["/index"]
    and links to [<d><g>]. *)
Theorem doc_url_weaviate src :
  technology src = "weaviate" ->
  (forall w ext, file_path src = "data/weaviate_docs/" ++ w ++ "." ++ ext ->
     has_char "x" w = false -> has_char "." w = false ->
     item_doc_url src = weaviate_base ++ w /\ details_doc_url src = weaviate_base ++ w) /\
  (forall d g ext, file_path src = "data/weaviate_docs/" ++ d ++ "/index" ++ g ++ "." ++ ext ->
     has_char "x" d = false -> has_char "." d = false -> has_char "." g = false ->
     item_doc_url src = weaviate_base ++ d ++ "/" ++ g /\
     details_doc_url src = weaviate_base ++ d ++ g).
Proof.
  intros Ht. unfold item_doc_url, details_doc_url. rewrite Ht. simpl.
  split.
  - intros w ext Hf Hx Hd. rewrite Hf. simpl. rewrite !append_nil_l.
    change ("." ++ ext) with (String "." ext).
    rewrite !(replace_first_skip _ _ _ w "." ext "x") by (reflexivity || exact Hx).
    rewrite !(replace_first_eq _ _ (String "." ext)). simpl.
    rewrite !before_char_app by exact Hd. rewrite !before_char_hit, !append_nil_r.
    split; reflexivity.
  - intros d g ext Hf Hx Hd Hg. rewrite Hf. simpl. rewrite !append_nil_l.
    change ("/index" ++ g ++ "." ++ ext) with (String "/" ("index" ++ g ++ "." ++ ext)).
    rewrite !(replace_first_skip _ _ _ d "/" ("index" ++ g ++ "." ++ ext) "x")
      by (reflexivity || exact Hx).
    rewrite (replace_first_eq "index" _ (String "/" _)). simpl. rewrite !append_nil_l.
    rewrite !before_char_app by assumption. simpl.
    rewrite !before_char_app by exact Hg.
    change ("." ++ ext) with (String "." ext). rewrite !before_char_hit, !append_nil_r.
    split; reflexivity.
Qed.
Lemma doc_url_qdrant_milvus_witness :
  item_doc_url (mkSource "qdrant" "data/qdrant_docs/documentation/guides/configuration.md"
                  "Configuration" "guide" 0 "" "") =
    "https://qdrant.tech/documentation/guides/configuration" /\
  details_doc_url (mkSource "milvus" "data/milvus_docs/site/en/install.md"
                  "Install" "guide" 0 "" "") = "https://milvus.io/docs/install.md".
Proof.
  destruct (doc_url_qdrant_milvus (mkSource "qdrant"
              "data/qdrant_docs/documentation/guides/configuration.md"
              "Configuration" "guide" 0 "" "")) as [Hq _].
  destruct (doc_url_qdrant_milvus (mkSource "milvus" "data/milvus_docs/site/en/install.md"
              "Install" "guide" 0 "" "")) as [_ [Hm _]].
  split.
  - exact (proj1 (Hq "documentation/guides/configuration" "md" eq_refl eq_refl eq_refl)).
  - exact (proj2 (Hm "data/milvus_docs/site/en" "install.md" eq_refl eq_refl eq_refl)).
Defined.

Lemma doc_url_weaviate_witness :
  item_doc_url (mkSource "weaviate" "data/weaviate_docs/config-refs/index.md"
                  "Reference" "guide" 0 "" "") = weaviate_base ++ "config-refs/" /\
  details_doc_url (mkSource "weaviate" "data/weaviate_docs/concepts/indexing.md"
                  "Indexing" "guide" 0 "" "") = weaviate_base ++ "conceptsing".
Proof.
  split.
  - exact (proj1 (proj2 (doc_url_weaviate (mkSource "weaviate"
              "data/weaviate_docs/config-refs/index.md" "Reference" "guide" 0 "" "") eq_refl)
            "config-refs" "" "md" eq_refl eq_refl eq_refl eq_refl)).
  - exact (proj2 (proj2 (doc_url_weaviate (mkSource "weaviate"
              "data/weaviate_docs/concepts/indexing.md" "Indexing" "guide" 0 "" "") eq_refl)
            "concepts" "ing" "md" eq_refl eq_refl eq_refl eq_refl)).
Defined.
End SourceLinksFacts.

Module ChatViewFacts.
Import ChatTypes JsString UseChat ChatHelpers.

Lemma loading_user_append_start cfg s content options :
  (isLoading s = true -> ends_with_user (messages s)) ->
  isLoading (append_start cfg s content options).1 = true ->
  ends_with_user (messages (append_start cfg s content options).1).
Proof.
  intros H. unfold append_start.
  destruct (String.eqb (trim content) ""); [exact H|].
  intros _. simpl. eexists _, _. split; reflexivity.
Qed.

Lemma loading_user_reload cfg s options :
  (isLoading s = true -> ends_with_user (messages s)) ->
  isLoading (reload cfg s options).1 = true ->
  ends_with_user (messages (reload cfg s options).1).
Proof.
  intros H.
  destruct (HookFacts.last_user_split (messages s)) as [Hno|(pre & m & post & E & Hm & Hpost)].
  - assert (Hr : reload cfg s options = (s, None)).
    { unfold reload. destruct (messages s) as [|x l] eqn:Es; [reflexivity|].
      unfold lastUserMessageIndex. rewrite UseChatFacts.lum_fold_no_user by exact Hno.
      reflexivity. }
    rewrite Hr. exact H.
  - rewrite (UseChatFacts.reload_unfold cfg s options pre m post E Hm Hpost).
    unfold append_start. destruct (String.eqb (trim (content m)) "").
    + intros _. exists pre, m. split; [reflexivity|exact Hm].
    + intros _. simpl. eexists _, _. split; reflexivity.
Qed.

Lemma loading_user_step cfg s s' :
  step cfg s s' ->
  (isLoading s = true -> ends_with_user (messages s)) ->
  isLoading s' = true -> ends_with_user (messages s').
Proof.
  destruct 1 as [s content options|s options|s|s r data _ _|s r e _]; intros H.
  - apply loading_user_append_start. exact H.
  - apply loading_user_reload. exact H.
  - unfold stop. destruct (ctrl s); [discriminate|exact H].
  - discriminate.
  - discriminate.
Qed.

(** In every reachable state of the hook, [Chat] shows
    [<LoadingMessages />] exactly when [isLoading] is set: while a turn
    is loading, the last message is the user's. *)
Theorem loading_indicator_follows_isLoading cfg ms cid u s :
  reachable cfg ms cid u s ->
  show_loading_messages (messages s) (isLoading s) = isLoading s.
Proof.
  intros Hr.
  assert (Hinv : isLoading s = true -> ends_with_user (messages s)).
  { unfold reachable in Hr. remember (init ms cid u) as s0 eqn:E.
    assert (H0 : isLoading s0 = true -> ends_with_user (messages s0))
      by (subst; discriminate). clear E.
    induction Hr as [s0|s0 s1 s2 Hs _ IH]; [exact H0|].
    apply IH. exact (loading_user_step cfg s0 s1 Hs H0). }
  unfold show_loading_messages.
  destruct (isLoading s) eqn:El; [|reflexivity].
  destruct (Hinv eq_refl) as (pre & m & -> & Hm).
  rewrite length_app. simpl.
  replace (length pre + 1 - 1) with (length pre + 0) by lia.
  rewrite list_lookup_middle by lia.
  destruct (Nat.ltb_spec 0 (length pre + 1)) as [_|H]; [|lia].
  rewrite Hm. reflexivity.
Qed.

Lemma loading_indicator_follows_isLoading_witness :
  show_loading_messages
    (messages (append_start chat_cfg (init [] None 0) "a" None).1) true = true.
Proof.
  exact (loading_indicator_follows_isLoading chat_cfg [] None 0 _
           (rtc_once _ _ (step_append _ _ "a" None))).
Defined.
End ChatViewFacts.

Module HistoryRouteFacts.
Import ChatRoute ChatPage.

(** The three history handlers on the same reply of the back end:
    [GET_SINGLE_CONVERSATION] and [DELETE] answer 404 exactly when the
    back end answered 404, while [GET] turns a 404 into a 500; when the
    fetch rejects, or the back end answers a status that is neither 2xx
    nor 404, each of the three answers 500; on a 2xx status [GET] and
    [GET_SINGLE_CONVERSATION] pass a JSON body through with status 200
    and answer 500 when it is not JSON, whereas [DELETE] answers 204 with
    no body whatever the back end's body.  So [DELETE] answers 204, 404
    or 500, and [GET] 200 or 500. *)
Theorem history_handlers_statuses r :
  (fst (DELETE r) = 404%Z <-> exists body, r = Some (404%Z, body)) /\
  (status (GET_SINGLE_CONVERSATION r) = 404%Z <-> exists body, r = Some (404%Z, body)) /\
  (forall body, r = Some (404%Z, body) -> status (GET r) = 500%Z) /\
  (r = None ->
     status (GET r) = 500%Z /\ status (GET_SINGLE_CONVERSATION r) = 500%Z /\
     fst (DELETE r) = 500%Z) /\
  (forall st body, r = Some (st, body) -> is_ok st = false -> st <> 404%Z ->
     status (GET r) = 500%Z /\ status (GET_SINGLE_CONVERSATION r) = 500%Z /\
     fst (DELETE r) = 500%Z) /\
  (forall st data, is_ok st = true -> r = Some (st, Some data) ->
     GET r = mkResp 200 data /\ GET_SINGLE_CONVERSATION r = mkResp 200 data) /\
  (forall st, is_ok st = true -> r = Some (st, None) ->
     status (GET r) = 500%Z /\ status (GET_SINGLE_CONVERSATION r) = 500%Z) /\
  (forall st body, is_ok st = true -> r = Some (st, body) -> DELETE r = (204%Z, None)) /\
  (fst (DELETE r) = 204%Z \/ fst (DELETE r) = 404%Z \/ fst (DELETE r) = 500%Z) /\
  (status (GET r) = 200%Z \/ status (GET r) = 500%Z).
Proof.
  destruct r as [[st body]|].
  2:{ split; [split; [discriminate|intros (b & H); discriminate]|].
      split; [split; [discriminate|intros (b & H); discriminate]|].
      split; [intros b H; discriminate|].
      split; [intros _; simpl; auto|].
      split; [intros st b H; discriminate|].
      split; [intros st d _ H; discriminate|]. split; [intros st _ H; discriminate|].
      split; [intros st b _ H; discriminate|]. split; simpl; auto. }
  unfold DELETE, GET, GET_SINGLE_CONVERSATION.
  split.
  { destruct (Z.eqb_spec st 404) as [->|E]; [split; [intros _; eauto|reflexivity]|].
    split; [destruct (is_ok st), body; simpl; discriminate|].
    intros (b & H). injection H as -> _. contradiction. }
  split.
  { destruct (Z.eqb_spec st 404) as [->|E]; [split; [intros _; eauto|reflexivity]|].
    split; [destruct (is_ok st), body; simpl; discriminate|].
    intros (b & H). injection H as -> _. contradiction. }
  split.
  { intros b H. injection H as -> ->. reflexivity. }
  split.
  { intros H; discriminate. }
  split.
  { intros st' b H Hok Hst. injection H as -> ->.
    rewrite Hok, (proj2 (Z.eqb_neq _ _) Hst). simpl. auto. }
  split.
  { intros st' d Hok H. injection H as -> ->.
    assert (Hst : st' <> 404%Z) by (intros ->; discriminate).
    rewrite Hok, (proj2 (Z.eqb_neq _ _) Hst). split; reflexivity. }
  split.
  { intros st' Hok H. injection H as -> ->.
    assert (Hst : st' <> 404%Z) by (intros ->; discriminate).
    rewrite Hok, (proj2 (Z.eqb_neq _ _) Hst). split; reflexivity. }
  split.
  { intros st' b Hok H. injection H as -> ->.
    assert (Hst : st' <> 404%Z) by (intros ->; discriminate).
    rewrite Hok, (proj2 (Z.eqb_neq _ _) Hst). reflexivity. }
  split.
  { destruct (Z.eqb st 404); [simpl; auto|]. destruct (is_ok st); simpl; auto. }
  destruct (is_ok st); simpl; [destruct body; simpl; auto|auto].
Qed.
End HistoryRouteFacts.
